(** * build_wordlist.py: the SCOWL five-letter word list builder

    A shallow embedding of [build_wordlist.py] and the properties its
    specification states about it.  Python [str] values are lists of
    Unicode code points, Python [int] values are [Z], the [seen] set of
    [process_words] is a [gset], exceptions are an error monad and the
    files the script writes are a [gmap] from path to content.  Console
    output ([print]) is not part of the model. *)

From Stdlib Require Import NArith ZArith Ascii String.
From stdpp Require Import base decidable numbers option list gmap sorting.

Local Open Scope N_scope.

(** * Code points and the Unicode character database *)

(** A [str] is the list of its code points. *)
Abbreviation str := (list N).

(** A string literal of the source, as the list of its code points (the
    literals of the script that are embedded here are ASCII). *)
Definition text (s : string) : str := N_of_ascii <$> list_ascii_of_string s.

(** What depends on the version of the interpreter (the script asks for
    Python 3.7 or later): what its Unicode character database says beyond
    the Latin-1 block, and how many digits it lets [int] read.  The
    tables of characters below are written out for U+0000..U+00FF and
    taken from this interface from U+0100 on. *)
Class Interpreter := {
  (** general category is one of Lm, Lt, Lu, Ll, Lo *)
  ucd_alpha : N → bool;
  (** simple lowercase mapping, as [_sre.unicode_tolower] *)
  ucd_tolower : N → N;
  (** decimal digit value of a character of category Nd *)
  ucd_decimal : N → option N;
  (** by how much [sys.get_int_max_str_digits()] exceeds 640, the least
      limit that can be set (the default from Python 3.11 on is 4300);
      [None] where [int] has no limit *)
  int_max_str_digits_over : option nat;
}.

(** An interpreter whose database knows no letter, case pair or digit
    beyond Latin-1 and that does not limit [int]; the definitions are run
    on concrete inputs with it. *)
Definition latin1_interpreter : Interpreter :=
  {| ucd_alpha := λ _, false; ucd_tolower := λ c, c; ucd_decimal := λ _, None;
     int_max_str_digits_over := None |}.

Definition in_range (lo hi c : N) : bool := (lo <=? c) && (c <=? hi).

Definition ascii_upper (c : N) : bool := in_range 65 90 c.
Definition ascii_lower (c : N) : bool := in_range 97 122 c.
Definition ascii_letter (c : N) : bool := ascii_upper c || ascii_lower c.

(** The letters of the Latin-1 block: A-Z, a-z, the ordinal indicators,
    the micro sign, and U+00C0..U+00FF without the multiplication and
    division signs. *)
Definition latin1_alpha (c : N) : bool :=
  ascii_letter c
  || (c =? 0xAA) || (c =? 0xB5) || (c =? 0xBA)
  || in_range 0xC0 0xD6 c || in_range 0xD8 0xF6 c || in_range 0xF8 0xFF c.

(** The lower case of a character of the Latin-1 block: the upper-case
    letters are A-Z and U+00C0..U+00DE (without U+00D7), each 32 below
    its lower case. *)
Definition latin1_tolower (c : N) : N :=
  if ascii_upper c || in_range 0xC0 0xD6 c || in_range 0xD8 0xDE c
  then c + 32 else c.

Section Unicode.
Context `{Interpreter}.

(** [c.isalpha()] for a single character. *)
Definition is_alpha (c : N) : bool :=
  if c <? 256 then latin1_alpha c else ucd_alpha c.

(** [_sre.unicode_tolower] *)
Definition sre_tolower (c : N) : N :=
  if c <? 256 then latin1_tolower c else ucd_tolower c.

(** The decimal value of a character that [\d] matches and [int] reads:
    in Latin-1 only the digits 0-9. *)
Definition decimal_value (c : N) : option N :=
  if c <? 256 then (if in_range 48 57 c then Some (c - 48) else None)
  else ucd_decimal c.

Definition is_decimal (c : N) : bool := bool_decide (is_Some (decimal_value c)).
End Unicode.

(** [Py_UNICODE_ISSPACE]: the characters [str.strip] removes. *)
Definition is_space (c : N) : bool :=
  in_range 0x09 0x0D c || in_range 0x1C 0x1F c || (c =? 0x20)
  || (c =? 0x85) || (c =? 0xA0) || (c =? 0x1680)
  || in_range 0x2000 0x200A c || (c =? 0x2028) || (c =? 0x2029)
  || (c =? 0x202F) || (c =? 0x205F) || (c =? 0x3000).

(** The line boundaries of [str.splitlines]. *)
Definition is_linebreak (c : N) : bool :=
  in_range 0x0A 0x0D c || in_range 0x1C 0x1E c
  || (c =? 0x85) || (c =? 0x2028) || (c =? 0x2029).

(** * Methods of [str] *)

Fixpoint lstrip (s : str) : str :=
  match s with
  | c :: s' => if is_space c then lstrip s' else s
  | [] => []
  end.

Definition rstrip (s : str) : str := reverse (lstrip (reverse s)).

(** [s.strip()] *)
Definition strip (s : str) : str := rstrip (lstrip s).

(** [s.startswith(p)] *)
Definition startswith (s p : str) : bool := bool_decide (take (length p) s = p).

(** [s.isalpha()]: at least one character, and all of them letters. *)
Definition isalpha `{Interpreter} (s : str) : bool :=
  match s with
  | [] => false
  | _ => forallb is_alpha s
  end.

(** [s.encode("ascii")]: [None] stands for [UnicodeEncodeError]. *)
Definition encode_ascii (s : str) : option (list N) :=
  if forallb (λ c, c <? 128) s then Some s else None.

(** [s.lower()] on a [str] of the Latin-1 block; [process_words] passes
    it ASCII only, the [encode] guard coming first.  Code points from
    U+0100 on are left as they are, where Python consults the case
    mappings of the Unicode database. *)
Definition lower (s : str) : str := latin1_tolower <$> s.

(** Comparison of two [str] values: code point by code point, a proper
    prefix being smaller. *)
Fixpoint str_cmp (a b : str) : comparison :=
  match a, b with
  | [], [] => Eq
  | [], _ :: _ => Lt
  | _ :: _, [] => Gt
  | x :: a', y :: b' =>
      match x ?= y with
      | Eq => str_cmp a' b'
      | c => c
      end
  end.

Definition str_le (a b : str) : Prop := str_cmp a b ≠ Gt.
Definition str_lt (a b : str) : Prop := str_cmp a b = Lt.

Global Instance comparison_eq_dec : EqDecision comparison.
Proof. solve_decision. Defined.

Global Instance str_le_dec : RelDecision str_le.
Proof. intros a b. unfold str_le. apply _. Defined.

Global Instance str_lt_dec : RelDecision str_lt.
Proof. intros a b. unfold str_lt. apply _. Defined.

(** [l.sort()] on a list of [str]. *)
Definition sort (l : list str) : list str := merge_sort str_le l.

(** * Steps 4 and 5: filter, clean, deduplicate, sort *)

Section ProcessWords.
Context `{Interpreter}.

(** The [for line in raw_words] loop, with the two variables it
    updates. *)
Fixpoint process_loop (raw_words : list str) (seen : gset (list N))
    (clean : list str) : list str :=
  match raw_words with
  | [] => clean
  | line :: rest =>
      let word := strip line in
      if bool_decide (word = []) || startswith word (text "#") then
        process_loop rest seen clean
      else if negb (isalpha word) then
        process_loop rest seen clean
      else match encode_ascii word with
      | None => process_loop rest seen clean
      | Some _ =>
          if bool_decide (length word ≠ 5%nat) then
            process_loop rest seen clean
          else
            let word_lower := lower word in
            if bool_decide (word_lower ∈ seen) then
              process_loop rest seen clean
            else
              process_loop rest ({[word_lower]} ∪ seen) (clean ++ [word_lower])
      end
  end.

Definition process_words (raw_words : list str) : list str :=
  sort (process_loop raw_words ∅ []).
End ProcessWords.

(** * Exceptions *)

(** The exception classes the script meets.  [SystemExit] carries the
    status passed to [sys.exit]. *)
Inductive exn :=
| URLError | HTTPError | TimeoutError | OSError
| JSONDecodeError | UnicodeDecodeError | UnicodeEncodeError | ValueError
| KeyError | AttributeError | TypeError
| TarError | ReadError | EOFError
| SystemExit (status : Z).

Global Instance exn_eq_dec : EqDecision exn.
Proof. solve_decision. Defined.

(** The direct base class of an exception class, where it has one among
    the classes above. *)
Definition base_class (e : exn) : option exn :=
  match e with
  | HTTPError => Some URLError
  | URLError => Some OSError
  | TimeoutError => Some OSError
  | JSONDecodeError => Some ValueError
  | UnicodeDecodeError => Some ValueError
  | UnicodeEncodeError => Some ValueError
  | ReadError => Some TarError
  | _ => None
  end.

(** [isinstance(e, cls)]; the class hierarchy above is three levels deep. *)
Definition isinstance (e cls : exn) : bool :=
  bool_decide (e = cls)
  || bool_decide (base_class e = Some cls)
  || bool_decide (base_class e ≫= base_class = Some cls).

(** [except (c1, c2, ...)] catches [e]. *)
Definition catches (classes : list exn) (e : exn) : bool :=
  existsb (isinstance e) classes.

(** The outcome of a computation that may raise. *)
Inductive result (A : Type) : Type :=
| Ok (a : A)
| Raise (e : exn).
Arguments Ok {A} a.
Arguments Raise {A} e.

Global Instance result_ret : MRet result := λ A, Ok.
Global Instance result_bind : MBind result := λ A B f r,
  match r with
  | Ok a => f a
  | Raise e => Raise e
  end.

Global Instance result_fmap : FMap result := λ A B f r,
  match r with
  | Ok a => Ok (f a)
  | Raise e => Raise e
  end.

(** * Regular expressions *)

(** The fragment of [re] syntax that [WORD_FILE_PATTERN] is written in. *)
Inductive regex :=
| Empty                     (* the empty pattern *)
| Lit (c : N)               (* a literal character *)
| Any                       (* [.] *)
| Digit                     (* [\d] *)
| Eol                       (* [$] *)
| Seq (r1 r2 : regex)       (* [r1 r2] *)
| Alt (r1 r2 : regex)       (* [r1|r2] *)
| Opt (r : regex)           (* [r?] *)
| Star (r : regex)          (* [r*] *)
| Plus (r : regex)          (* [r+] *)
| Group (i : nat) (r : regex).  (* the [i]-th capturing group [(r)] *)

(** A position of the matcher: the text still to be read and the groups
    captured so far. *)
Abbreviation mstate := (list N * gmap nat (list N))%type.

(** A greedy repetition: first one more round of [step], then stopping
    here.  A round that reads nothing ends the repetition, as in [sre]. *)
Fixpoint repeat_greedy (step : mstate → list mstate) (fuel : nat)
    (st : mstate) : list mstate :=
  match fuel with
  | O => [st]
  | S fuel' =>
      (step st ≫= λ st',
         if bool_decide (length st'.1 < length st.1)%nat
         then repeat_greedy step fuel' st' else [])
      ++ [st]
  end.

(** [_sre.unicode_iscased] and the [_EXTRA_CASES] table of the [re]
    compiler, for a pattern literal of the Latin-1 block. *)
Definition latin1_cased (c : N) : bool :=
  latin1_alpha c && negb ((c =? 0xAA) || (c =? 0xBA)).

Definition extra_cases (lo : N) : list N :=
  if lo =? 0x69 then [0x131]
  else if lo =? 0x73 then [0x17F]
  else if lo =? 0xB5 then [0x3BC]
  else [].

Section Matcher.
Context `{Interpreter}.

(** Whether the pattern literal [av] matches the character [ch]: under
    [re.IGNORECASE] a cased literal is compiled to its lower case
    together with its extra cases, and the character is lowered before
    it is compared. *)
Definition lit_match (ignorecase : bool) (av ch : N) : bool :=
  if ignorecase && latin1_cased av then
    let lo := sre_tolower av in
    bool_decide (sre_tolower ch ∈ lo :: extra_cases lo)
  else ch =? av.

(** One character of the text, if it passes [test]. *)
Definition read_char (test : N → bool) (st : mstate) : list mstate :=
  match st.1 with
  | ch :: s' => if test ch then [(s', st.2)] else []
  | [] => []
  end.

(** All the ways [r] matches at [st], in the order in which the
    backtracking matcher of [re] tries them. *)
Fixpoint run (ignorecase : bool) (r : regex) (st : mstate) : list mstate :=
  match r with
  | Empty => [st]
  | Lit av => read_char (lit_match ignorecase av) st
  | Any => read_char (λ ch, negb (ch =? 10)) st
  | Digit => read_char is_decimal st
  | Eol => if bool_decide (st.1 = [] ∨ st.1 = [10]) then [st] else []
  | Seq r1 r2 => run ignorecase r1 st ≫= run ignorecase r2
  | Alt r1 r2 => run ignorecase r1 st ++ run ignorecase r2 st
  | Opt r' => run ignorecase r' st ++ [st]
  | Star r' => repeat_greedy (run ignorecase r') (S (length st.1)) st
  | Plus r' =>
      run ignorecase r' st ≫= λ st',
        repeat_greedy (run ignorecase r') (S (length st'.1)) st'
  | Group i r' =>
      (λ st' : mstate,
         (st'.1, <[i := take (length st.1 - length st'.1) st.1]> st'.2))
      <$> run ignorecase r' st
  end.

(** [re.compile(r, flags).match(s)]: the groups of the first match at
    the start of [s], [None] when there is none. *)
Definition re_match (ignorecase : bool) (r : regex) (s : str)
    : option (gmap nat (list N)) :=
  snd <$> head (run ignorecase r (s, ∅)).

Fixpoint int_digits (acc : Z) (s : str) : result Z :=
  match s with
  | [] => Ok acc
  | c :: s' =>
      match decimal_value c with
      | Some d => int_digits (10 * acc + Z.of_N d) s'
      | None => Raise ValueError
      end
  end.

(** [int(x)] for [x = m.group(i)]: [None] (a group that did not take
    part in the match) is a [TypeError]; a text is read as a run of
    decimal digits, anything else being a [ValueError], as is a run
    longer than the interpreter's limit. *)
Definition int (x : option str) : result Z :=
  match x with
  | None => Raise TypeError
  | Some [] => Raise ValueError
  | Some s =>
      match int_max_str_digits_over with
      | Some over =>
          if bool_decide (640 + over < length s)%nat then Raise ValueError
          else int_digits 0 s
      | None => int_digits 0 s
      end
  end.
End Matcher.

(** A run of literal characters. *)
Definition lits (s : string) : regex := foldr (λ c r, Seq (Lit c) r) Empty (text s).

(** * Configuration *)

Definition FALLBACK_URL : str :=
  text "https://github.com/en-us/scowl/archive/refs/heads/master.tar.gz".

Definition OUT_TXT : string := "five_letter_words.txt".
Definition OUT_JSON : string := "five_letter_words.json".

Definition MIN_LEVEL : Z := 10.
Definition MAX_LEVEL : Z := 70.

(** * Step 3: extract word files *)

(** [(english|american|british|canadian|australian|variant|.*-words?)\.(\d+)$],
    compiled with [re.IGNORECASE]. *)
Definition WORD_FILE_PATTERN : regex :=
  Seq (Group 1
         (Alt (lits "english")
         (Alt (lits "american")
         (Alt (lits "british")
         (Alt (lits "canadian")
         (Alt (lits "australian")
         (Alt (lits "variant")
              (Seq (Star Any) (Seq (lits "-word") (Opt (Lit 115)))))))))))
  (Seq (Lit 46)
  (Seq (Group 2 (Plus Digit))
       Eol)).

(** [s.rfind(x)]: the index of the last [x] in [s], or [-1]. *)
Fixpoint rfind (x : N) (s : str) : Z :=
  match s with
  | [] => -1
  | c :: s' =>
      let i := rfind x s' in
      if (0 <=? i)%Z then (i + 1)%Z else if c =? x then 0%Z else (-1)%Z
  end.

(** [os.path.basename] of [posixpath]: what follows the last slash. *)
Definition basename (p : str) : str :=
  let i := (rfind 47 p + 1)%Z in
  drop (Z.to_nat i) p.

(** The loop of [s.splitlines()], with the line read so far (backwards). *)
Fixpoint splitlines_from (s : str) (line : str) : list str :=
  match s with
  | [] => match line with [] => [] | _ => [reverse line] end
  | c :: s' =>
      if is_linebreak c then
        reverse line ::
        match s' with
        | d :: s'' =>
            if (c =? 13) && (d =? 10) then splitlines_from s'' []
            else splitlines_from s' []
        | [] => splitlines_from s' []
        end
      else splitlines_from s' (c :: line)
  end.

Definition splitlines (s : str) : list str := splitlines_from s [].

(** What the archive gives for a member: [tar.extractfile] raises, or
    returns [None] for a member that is not a file; reading or decoding
    the file raises; or the text is the member's bytes decoded as UTF-8
    with [errors="ignore"]. *)
Inductive member_data :=
| ExtractRaises (e : exn)
| NotAFile
| Unreadable
| Data (t : str).

Record member := { m_name : str; m_data : member_data }.

Section ExtractWords.
Context `{Interpreter}.

Definition in_levels (level : Z) : bool :=
  (MIN_LEVEL <=? level)%Z && (level <=? MAX_LEVEL)%Z.

(** The [for member in tar.getmembers()] loop with the two variables it
    updates. *)
Fixpoint extract_loop (members : list member) (raw_words : list str)
    (files_read : nat) : result (list str * nat) :=
  match members with
  | [] => Ok (raw_words, files_read)
  | member :: rest =>
      let filename := basename (m_name member) in
      match re_match true WORD_FILE_PATTERN filename with
      | None => extract_loop rest raw_words files_read
      | Some groups =>
          level ← int (groups !! 2%nat);
          if negb (in_levels level) then
            extract_loop rest raw_words files_read
          else match m_data member with
          | ExtractRaises e => Raise e
          | NotAFile => extract_loop rest raw_words files_read
          | Unreadable => extract_loop rest raw_words files_read
          | Data t =>
              extract_loop rest (raw_words ++ splitlines t) (S files_read)
          end
      end
  end.

(** What [tarfile] does with the downloaded file: opening it or
    listing its members raises, or these are its members. *)
Inductive tarball :=
| OpenRaises (e : exn)
| Members (ms : list member).

Definition extract_words (tarball_path : tarball) : result (list str) :=
  let try : result (list str) :=
    match tarball_path with
    | OpenRaises e => Raise e
    | Members ms => fst <$> extract_loop ms [] 0%nat
    end in
  match try with
  | Ok raw_words => Ok raw_words
  | Raise exc =>
      if catches [TarError] exc then Raise (SystemExit 1) else Raise exc
  end.

(** A member qualifies when its name passes both tests of the loop: the
    pattern matches its base name and the level read from the second
    group is within the bounds. *)
Definition qualifies (name : str) : bool :=
  match re_match true WORD_FILE_PATTERN (basename name) with
  | None => false
  | Some groups =>
      match int (groups !! 2%nat) with
      | Ok level => in_levels level
      | Raise _ => false
      end
  end.
End ExtractWords.

(** * Step 1: resolve the download URL *)

#[local] Set Warnings "-register-all".

(** The objects [json.loads] returns.  A [dict] is held as its items in
    document order, a later item for a key replacing an earlier one; of a
    [float] only its truth value is kept. *)
Inductive json :=
| JNone
| JBool (b : bool)
| JInt (n : Z)
| JFloat (nonzero : bool)
| JStr (s : str)
| JList (l : list json)
| JDict (items : list (str * json)).

(** The truth value of an object, as [if x:] tests it. *)
Definition truthy (x : json) : bool :=
  match x with
  | JNone => false
  | JBool b => b
  | JInt n => negb (n =? 0)%Z
  | JFloat nonzero => nonzero
  | JStr s => negb (bool_decide (s = []))
  | JList l => match l with [] => false | _ => true end
  | JDict items => match items with [] => false | _ => true end
  end.

(** The value of [key] among the items of a [dict], the last one given
    for it, or [default]. *)
Fixpoint items_get (items : list (str * json)) (key : str) (default : json) : json :=
  match items with
  | [] => default
  | (k, v) :: items' =>
      items_get items' key (if bool_decide (k = key) then v else default)
  end.

(** [x.get(key, default)]: only a [dict] has the method. *)
Definition get (x : json) (key : str) (default : json) : result json :=
  match x with
  | JDict items => Ok (items_get items key default)
  | _ => Raise AttributeError
  end.

(** How the query of the releases API goes: [urlopen] raises, or
    [resp.read()] raises, or the body is not UTF-8 ([decode] raises
    [UnicodeDecodeError]), or it is not JSON ([json.loads] raises
    [JSONDecodeError]), or [json.loads] raises another exception on it
    (such as [RecursionError] on a text that is nested too deep), or it
    is the JSON text of [data]. *)
Inductive api_reply :=
| UrlopenRaises (e : exn)
| ReadRaises (e : exn)
| NotUtf8
| NotJson
| LoadsRaises (e : exn)
| Json (data : json).

(** The number of decimal digits of an integer, as JSON writes it. *)
Definition decimal_digits (n : Z) : nat :=
  Decimal.nb_digits (N.to_uint (Z.abs_N n)).

(** Whether an integer of the document has more digits than [limit]. *)
Fixpoint long_int (limit : nat) (x : json) : bool :=
  match x with
  | JInt n => (limit <? decimal_digits n)%nat
  | JList l => existsb (long_int limit) l
  | JDict items => existsb (λ '(_, v), long_int limit v) items
  | _ => false
  end.

(** A surrogate code point.  The console is taken to encode every
    character that is not one, as it does with UTF-8, the encoding of
    [sys.stdout] by default. *)
Definition surrogate (c : N) : bool := in_range 0xD800 0xDFFF c.

(** [print(f"... {x}")] as far as it can raise: the text of a [str] is
    the [str] itself, which cannot be encoded when it holds a surrogate;
    the text of any other object is its [repr], where a surrogate within
    a [str] is written as an escape. *)
Definition print_value (x : json) : result unit :=
  match x with
  | JStr s => if existsb surrogate s then Raise UnicodeEncodeError else Ok ()
  | _ => Ok ()
  end.

Section GetDownloadUrl.
Context `{Interpreter}.

(** [data = json.loads(resp.read().decode())] under [urlopen].
    [json.loads] reads an integer with [int], which raises [ValueError]
    when the integer has more digits than the interpreter's limit. *)
Definition query_api (reply : api_reply) : result json :=
  match reply with
  | UrlopenRaises e => Raise e
  | ReadRaises e => Raise e
  | NotUtf8 => Raise UnicodeDecodeError
  | NotJson => Raise JSONDecodeError
  | LoadsRaises e => Raise e
  | Json data =>
      match int_max_str_digits_over with
      | Some over =>
          if long_int (640 + over) data then Raise ValueError else Ok data
      | None => Ok data
      end
  end.

(** The function returns whatever object it finds under ["tarball_url"]
    when that object is true, so its result is an object and not always a
    [str].  Of its calls of [print], the two within the [try] block write
    text of the reply and are kept here. *)
Definition get_download_url (reply : api_reply) : result json :=
  let try : result (option json) :=
    data ← query_api reply;
    tarball_url ← get data (text "tarball_url") (JStr []);
    if truthy tarball_url then
      tag_name ← get data (text "tag_name") (JStr (text "unknown"));
      _ ← print_value tag_name;
      _ ← print_value tarball_url;
      Ok (Some tarball_url)
    else Ok None in
  match try with
  | Ok (Some tarball_url) => Ok tarball_url
  | Ok None => Ok (JStr FALLBACK_URL)
  | Raise exc =>
      if catches [URLError; JSONDecodeError; KeyError] exc
      then Ok (JStr FALLBACK_URL)
      else Raise exc
  end.
End GetDownloadUrl.

(** * Step 2: download the tarball *)

(** How the download of [url] goes: something in the [try] block raises,
    or the file is saved; the saved file is known by what [tarfile.open]
    does with it. *)
Inductive download_reply :=
| DownloadRaises (e : exn)
| Saved (t : tarball).

Definition download_tarball (reply : download_reply) : result tarball :=
  match reply with
  | DownloadRaises e =>
      if catches [URLError] e then Raise (SystemExit 1) else Raise e
  | Saved t => Ok t
  end.

(** * Step 6: save outputs *)

(** [sep.join(l)] *)
Fixpoint join (sep : str) (l : list str) : str :=
  match l with
  | [] => []
  | [x] => x
  | x :: l' => x ++ sep ++ join sep l'
  end.

(** A lower-case hexadecimal digit. *)
Definition hex_digit (n : N) : N := if n <? 10 then 48 + n else 87 + n.

(** [\uXXXX] *)
Definition u_escape (c : N) : str :=
  [92; 117; hex_digit (c / 4096 mod 16); hex_digit (c / 256 mod 16);
   hex_digit (c / 16 mod 16); hex_digit (c mod 16)].

(** One character of a string in [json.dump(..., ensure_ascii=True)]:
    the quote and the backslash are escaped, the printable ASCII
    characters stand for themselves, and everything else is a short
    escape or [\uXXXX], a surrogate pair from U+10000 on. *)
Definition escape_char (c : N) : str :=
  if c =? 34 then [92; 34]
  else if c =? 92 then [92; 92]
  else if in_range 32 126 c then [c]
  else if c =? 10 then [92; 110]
  else if c =? 13 then [92; 114]
  else if c =? 9 then [92; 116]
  else if c =? 12 then [92; 102]
  else if c =? 8 then [92; 98]
  else if c <? 0x10000 then u_escape c
  else
    let n := c - 0x10000 in
    u_escape (0xD800 + n / 1024 mod 1024) ++ u_escape (0xDC00 + n mod 1024).

Definition encode_str (s : str) : str := [34] ++ mjoin (escape_char <$> s) ++ [34].

(** [json.dumps(words, indent=2, ensure_ascii=True)] for a list of [str]. *)
Definition json_dumps (words : list str) : str :=
  match words with
  | [] => text "[]"
  | _ =>
      text "[" ++ [10; 32; 32]
      ++ join [44; 10; 32; 32] (encode_str <$> words)
      ++ [10] ++ text "]"
  end.

(** The files next to the script, by name. *)
Abbreviation files := (gmap string (list N)).

(** What does not depend on the script: the reply of the releases API,
    how the download of a URL goes, and which files can be opened for
    writing. *)
Record world := {
  api : api_reply;
  download : json → download_reply;
  writable : string → bool;
}.

(** [with open(path, "w") as f: f.write(content)] *)
Definition write_file (w : world) (path : string) (content : str)
    (fs : files) : result unit * files :=
  if writable w path then (Ok (), <[path := content]> fs)
  else (Raise OSError, fs).

(** The two files are written one after the other, each by one [open]
    and one [write].  Opening a file that is not [writable] raises
    [OSError]; a write that was begun is taken to end well, and so are
    the calls of [print], which write fixed text, a path and a count to
    the console. *)
Definition save_outputs (w : world) (words : list str) (fs : files)
    : result unit * files :=
  match write_file w OUT_TXT (join [10] words ++ [10]) fs with
  | (Raise e, fs1) => (Raise e, fs1)
  | (Ok _, fs1) => write_file w OUT_JSON (json_dumps words ++ [10]) fs1
  end.

(** * Entry point *)

Section Main.
Context `{Interpreter}.

(** The body of the [with tempfile.TemporaryDirectory(...)] block.  The
    tarball is kept in the temporary directory, which is not among the
    [files] next to the script; making and removing that directory is
    taken to succeed. *)
Definition fetch_raw (w : world) : result (list str) :=
  url ← get_download_url (api w);
  tarball_path ← download_tarball (download w url);
  extract_words tarball_path.

Definition main (w : world) (fs : files) : result unit * files :=
  match fetch_raw w with
  | Raise e => (Raise e, fs)
  | Ok raw =>
      let words := process_words raw in
      match words with
      | [] => (Raise (SystemExit 1), fs)
      | _ => save_outputs w words fs
      end
  end.
End Main.

(** The exit status of the interpreter: 0 when [main] returns, the status
    given to [sys.exit], and 1 for any other exception. *)
Definition exit_status (r : result unit) : Z :=
  match r with
  | Ok _ => 0
  | Raise (SystemExit status) => status
  | Raise _ => 1
  end.

(** * Reading the two files back *)

(** The script only writes the two files.  Reading the text file line by
    line is [splitlines] above; reading the JSON file is [json.loads],
    given here for documents that are arrays of strings ([None] for any
    other text). *)

Definition json_space (c : N) : bool :=
  (c =? 32) || (c =? 9) || (c =? 10) || (c =? 13).

Fixpoint skip_space (s : str) : str :=
  match s with
  | c :: s' => if json_space c then skip_space s' else s
  | [] => []
  end.

Definition hex_value (c : N) : option N :=
  if in_range 48 57 c then Some (c - 48)
  else if in_range 97 102 c then Some (c - 87)
  else if in_range 65 70 c then Some (c - 55)
  else None.

Definition hex4 (a b c d : N) : option N :=
  x ← hex_value a; y ← hex_value b; z ← hex_value c; w ← hex_value d;
  Some (((x * 16 + y) * 16 + z) * 16 + w).

(** The character a short escape stands for. *)
Definition short_escape (e : N) : option N :=
  if e =? 34 then Some 34
  else if e =? 92 then Some 92
  else if e =? 47 then Some 47
  else if e =? 98 then Some 8
  else if e =? 102 then Some 12
  else if e =? 110 then Some 10
  else if e =? 114 then Some 13
  else if e =? 116 then Some 9
  else None.

(** A string after its opening quote: its characters (gathered backwards
    in [acc]) and the text after its closing quote. *)
Fixpoint scan_string (s : str) (acc : str) : option (str * str) :=
  match s with
  | [] => None
  | c :: s1 =>
      if c =? 34 then Some (reverse acc, s1)
      else if c =? 92 then
        match s1 with
        | [] => None
        | e :: s2 =>
            if e =? 117 then
              match s2 with
              | h1 :: h2 :: h3 :: h4 :: s3 =>
                  match hex4 h1 h2 h3 h4 with
                  | None => None
                  | Some u =>
                      match s3 with
                      | b :: v :: s4 =>
                          if in_range 0xD800 0xDBFF u && (b =? 92) && (v =? 117) then
                            match s4 with
                            | g1 :: g2 :: g3 :: g4 :: s5 =>
                                match hex4 g1 g2 g3 g4 with
                                | None => None
                                | Some u2 =>
                                    if in_range 0xDC00 0xDFFF u2 then
                                      scan_string s5
                                        (0x10000 + (u - 0xD800) * 1024 + (u2 - 0xDC00) :: acc)
                                    else scan_string s3 (u :: acc)
                                end
                            | _ => None
                            end
                          else scan_string s3 (u :: acc)
                      | _ => scan_string s3 (u :: acc)
                      end
                  end
              | _ => None
              end
            else
              match short_escape e with
              | Some x => scan_string s2 (x :: acc)
              | None => None
              end
        end
      else if c <? 32 then None
      else scan_string s1 (c :: acc)
  end.

(** The items of an array from the start of an item on: the strings
    (gathered backwards in [acc]) and the text after the closing
    bracket. *)
Fixpoint scan_items (fuel : nat) (s : str) (acc : list str)
    : option (list str * str) :=
  match fuel with
  | O => None
  | S fuel' =>
      match s with
      | [] => None
      | c :: s1 =>
          if c =? 34 then
            match scan_string s1 [] with
            | None => None
            | Some (item, s2) =>
                match skip_space s2 with
                | [] => None
                | d :: s3 =>
                    if d =? 44 then scan_items fuel' (skip_space s3) (item :: acc)
                    else if d =? 93 then Some (reverse (item :: acc), s3)
                    else None
                end
            end
          else None
      end
  end.

Definition loads_words (s : str) : option (list str) :=
  match skip_space s with
  | [] => None
  | c :: s1 =>
      if c =? 91 then
        match skip_space s1 with
        | [] => None
        | d :: s2 =>
            if d =? 93 then
              match skip_space s2 with [] => Some [] | _ => None end
            else
              match scan_items (length s1) (skip_space s1) [] with
              | Some (items, s3) =>
                  match skip_space s3 with [] => Some items | _ => None end
              | None => None
              end
        end
      else None
  end.

(** * The vocabulary of the specification *)

(** A member of the final word set: exactly five characters, each of
    them one of a-z. *)
Definition five_lower (w : str) : Prop :=
  length w = 5%nat ∧ Forall (λ c, 97 ≤ c ≤ 122) w.

(** The characters that the specification names for step 3 of the
    filter: ASCII punctuation (the hyphen and the apostrophe among it)
    and the ASCII digits. *)
Definition ascii_digit (c : N) : bool := in_range 48 57 c.
Definition ascii_punctuation (c : N) : bool :=
  in_range 33 47 c || in_range 58 64 c || in_range 91 96 c || in_range 123 126 c.

(** The character to which the matcher folds [c] under
    [re.IGNORECASE]: its simple lower case, with the extra cases of i, s
    and the micro sign (dotless i, long s, Greek mu) counted as these. *)
Definition sre_fold `{Interpreter} (c : N) : N :=
  let lo := sre_tolower c in
  if lo =? 0x131 then 0x69
  else if lo =? 0x17F then 0x73
  else if lo =? 0x3BC then 0xB5
  else lo.

(** A character that can be one case of a letter: a cased letter of the
    Latin-1 block, or a character beyond the block that is no decimal
    digit. *)
Definition may_vary `{Interpreter} (c : N) : bool :=
  if c <? 256 then latin1_cased c else negb (is_decimal c).

(** Two characters that are one letter in the same or in different case:
    the same character; or two characters that the matcher folds to one
    (the two cases of a letter of any script, the Kelvin sign and k,
    U+0130 and i, long s and S); or two characters beyond Latin-1 whose
    folds are beyond Latin-1 too (among them the case forms that do not
    share a lower case, such as final and capital sigma).  And two names
    that differ at most in this way, character by character. *)
Definition same_letter `{Interpreter} (x y : N) : Prop :=
  x = y
  ∨ (may_vary x = true ∧ may_vary y = true
     ∧ (sre_fold x = sre_fold y ∨ (256 ≤ sre_fold x ∧ 256 ≤ sre_fold y))).
Definition case_variant `{Interpreter} (a b : str) : Prop := Forall2 same_letter a b.

Global Instance same_letter_dec `{Interpreter} : RelDecision same_letter.
Proof. intros x y. unfold same_letter. apply _. Defined.

Global Instance case_variant_dec `{Interpreter} : RelDecision case_variant.
Proof. intros a b. unfold case_variant. apply _. Defined.

(** A pattern whose literals are characters of the Latin-1 block. *)
Fixpoint latin1_pattern (r : regex) : bool :=
  match r with
  | Lit c => c <? 256
  | Empty | Any | Digit | Eol => true
  | Seq r1 r2 | Alt r1 r2 => latin1_pattern r1 && latin1_pattern r2
  | Opt r' | Star r' | Plus r' | Group _ r' => latin1_pattern r'
  end.

(** [s.lower()] on a [str] of characters of Latin-1 and capital I with
    dot above: the lower case of U+0130 is two characters, i and the
    combining dot above. *)
Definition lower_dotted (s : str) : str :=
  s ≫= λ c, if c =? 0x130 then [0x69; 0x307] else [latin1_tolower c].

(** An interpreter whose database knows one character beyond Latin-1:
    the capital I with dot above, U+0130, a letter whose simple lower
    case is i. *)
Definition dotted_I_interpreter : Interpreter :=
  {| ucd_alpha := λ c, c =? 0x130;
     ucd_tolower := λ c, if c =? 0x130 then 0x69 else c;
     ucd_decimal := λ _, None;
     int_max_str_digits_over := None |}.

(** The texts a pattern reads, for a pattern without groups and without
    [$] (which looks at the text that follows). *)
Fixpoint simple (r : regex) : bool :=
  match r with
  | Empty | Lit _ | Any | Digit => true
  | Eol | Group _ _ => false
  | Seq r1 r2 | Alt r1 r2 => simple r1 && simple r2
  | Opt r' | Star r' | Plus r' => simple r'
  end.

Fixpoint lang `{Interpreter} (ignorecase : bool) (r : regex) (p : str) : Prop :=
  match r with
  | Empty => p = []
  | Lit av => ∃ ch, p = [ch] ∧ lit_match ignorecase av ch = true
  | Any => ∃ ch, p = [ch] ∧ ch ≠ 10
  | Digit => ∃ ch, p = [ch] ∧ is_decimal ch = true
  | Seq r1 r2 => ∃ p1 p2, p = p1 ++ p2 ∧ lang ignorecase r1 p1 ∧ lang ignorecase r2 p2
  | Alt r1 r2 => lang ignorecase r1 p ∨ lang ignorecase r2 p
  | Opt r' => lang ignorecase r' p ∨ p = []
  | Star r' =>
      ∃ ps, p = concat ps ∧ Forall (λ q, lang ignorecase r' q ∧ q ≠ []) ps
  | Plus r' =>
      ∃ q ps, p = q ++ concat ps ∧ lang ignorecase r' q
              ∧ Forall (λ q, lang ignorecase r' q ∧ q ≠ []) ps
  | Eol | Group _ _ => False
  end.

(** The names before the dot that the first group of the pattern takes. *)
Definition STEM : regex :=
  Alt (lits "english")
 (Alt (lits "american")
 (Alt (lits "british")
 (Alt (lits "canadian")
 (Alt (lits "australian")
 (Alt (lits "variant")
      (Seq (Star Any) (Seq (lits "-word") (Opt (Lit 115))))))))).

(** [p] is the text [w] up to the case of letters, as the literals of a
    pattern compiled with [re.IGNORECASE] take it. *)
Definition spells `{Interpreter} (w : string) (p : str) : Prop :=
  Forall2 (λ av ch, lit_match true av ch = true) (text w) p.

(** The stems in words: one of the six names, or any text without a
    newline that ends in -word or -words. *)
Definition stem_ok `{Interpreter} (stem : str) : Prop :=
  (∃ w, w ∈ ["english"; "american"; "british"; "canadian"; "australian"; "variant"]%string
        ∧ spells w stem)
  ∨ (∃ x sfx, stem = x ++ sfx ∧ (10 ∉ x)
              ∧ (spells "-word" sfx ∨ spells "-words" sfx)).

(** Two positions of the matcher over two case variants of a text. *)
Definition st_variant `{Interpreter} (st st' : mstate) : Prop :=
  case_variant st.1 st'.1
  ∧ ∀ i : nat, option_Forall2 case_variant (st.2 !! i) (st'.2 !! i).

(** A character that [json.dump] writes as it is. *)
Definition plain (c : N) : Prop := 32 ≤ c ≤ 126 ∧ c ≠ 34 ∧ c ≠ 92.

(** The separator between two items and the end of the array, as
    [json.dump] writes them with [indent=2]. *)
Definition item_sep : str := [44; 10; 32; 32].
Definition array_end : str := [10; 93].

(** A run in which the releases API cannot be reached, the fallback URL
    is downloaded, and the one word file of the archive holds no
    five-letter word. *)
Definition barren_world : world :=
  {| api := UrlopenRaises URLError;
     download := λ _, Saved (Members [ {| m_name := text "final/english-words.60";
                                          m_data := Data (text "12345") |} ]);
     writable := λ _, true |}.

(** A run in which every file can be written. *)
Definition open_world : world :=
  {| api := UrlopenRaises URLError;
     download := λ _, DownloadRaises URLError;
     writable := λ _, true |}.

(** A token that the filter keeps: exactly five ASCII letters. *)
Definition accepted (word : str) : Prop :=
  length word = 5%nat ∧ Forall (λ c, ascii_letter c = true) word.

Global Instance accepted_dec word : Decision (accepted word).
Proof. unfold accepted. apply _. Defined.

(** The words the filter takes from a list of raw lines. *)
Definition kept (raw : list str) (w : str) : Prop :=
  ∃ line, line ∈ raw ∧ accepted (strip line) ∧ w = lower (strip line).

(** The raw lines that one member of the archive adds, and whether the
    member counts as a file read. *)
Definition member_lines `{Interpreter} (m : member) : list str :=
  if qualifies (m_name m) then
    match m_data m with
    | Data t => splitlines t
    | _ => []
    end
  else [].

Definition member_read `{Interpreter} (m : member) : bool :=
  qualifies (m_name m) && match m_data m with Data _ => true | _ => false end.

(** A member over which the loop of [extract_words] cannot raise: its
    name is short enough for [int] under any limit on digits, and
    [tar.extractfile] does not raise on it if it qualifies. *)
Definition member_safe `{Interpreter} (m : member) : Prop :=
  (length (m_name m) ≤ 640)%nat
  ∧ (qualifies (m_name m) = true → ∀ e, m_data m ≠ ExtractRaises e).

(** The text of a member that is read, without its line boundaries. *)
Definition member_text `{Interpreter} (m : member) : str :=
  if qualifies (m_name m) then
    match m_data m with
    | Data t => filter (λ c, is_linebreak c = false) t
    | _ => []
    end
  else [].

(** An archive with a directory, a word file within the levels, one
    beyond them, and a file that is no word list. *)
Definition sample_archive : list member :=
  [ {| m_name := text "scowl/final"; m_data := NotAFile |};
    {| m_name := text "scowl/final/english-words.10";
       m_data := Data (text "apple" ++ [10] ++ text "it's" ++ [10]) |};
    {| m_name := text "scowl/final/english-words.80";
       m_data := Data (text "zloty" ++ [10]) |};
    {| m_name := text "scowl/README"; m_data := Data (text "read me") |} ].

(** A Unicode scalar value: a code point that is no surrogate. *)
Definition scalar (c : N) : Prop := c < 0x110000 ∧ ¬ (0xD800 ≤ c ≤ 0xDFFF).

(** A run in which the text file can be written and the JSON file
    cannot. *)
Definition half_open_world : world :=
  {| api := UrlopenRaises URLError;
     download := λ _, Saved (Members sample_archive);
     writable := λ path, bool_decide (path = OUT_TXT) |}.

Global Instance scalar_dec c : Decision (scalar c).
Proof. unfold scalar. apply _. Defined.

(** A run in which the releases API names a tarball, the archive is
    downloaded and both files can be written. *)
Definition sample_world : world :=
  {| api := Json (JDict [(text "tag_name", JStr (text "2020.12.07"));
                         (text "tarball_url", JStr (text "https://example.org/scowl.tar.gz"))]);
     download := λ _, Saved (Members sample_archive);
     writable := λ _, true |}.


(** The two files after the run of [sample_world] from no file. *)
Definition sample_files : files :=
  <[OUT_JSON := json_dumps [text "apple"] ++ [10]]>
    (<[OUT_TXT := join [10] [text "apple"] ++ [10]]> ∅).

(** An interpreter like [latin1_interpreter] that lets [int] read 640
    digits, the least limit that can be set. *)
Definition limited_interpreter : Interpreter :=
  {| ucd_alpha := λ _, false; ucd_tolower := λ c, c; ucd_decimal := λ _, None;
     int_max_str_digits_over := Some 0%nat |}.

(** * The order of [str] *)

Section StrOrder.
Implicit Types a b c : str.

Lemma str_cmp_eq a b : str_cmp a b = Eq ↔ a = b.
Proof.
  revert b. induction a as [|x a IH]; intros [|y b]; simpl; try (split; congruence).
  destruct (N.compare_spec x y) as [->| |]; rewrite ?IH; split; try congruence;
    intros [= -> ->]; lia.
Qed.

Lemma str_cmp_opp a b : str_cmp b a = CompOpp (str_cmp a b).
Proof.
  revert b. induction a as [|x a IH]; intros [|y b]; simpl; try reflexivity.
  rewrite (N.compare_antisym x y).
  destruct (x ?= y); simpl; auto.
Qed.

Lemma str_cmp_lt_trans a b c :
  str_cmp a b = Lt → str_cmp b c = Lt → str_cmp a c = Lt.
Proof.
  revert b c. induction a as [|x a IH]; intros [|y b] [|z c]; simpl; try congruence.
  destruct (N.compare_spec x y) as [->| |]; try congruence.
  - destruct (N.compare_spec y z) as [->| |]; try congruence. apply IH.
  - destruct (N.compare_spec y z) as [->| |]; try congruence; intros _ _.
    + destruct (N.compare_spec x z); try lia; reflexivity.
    + destruct (N.compare_spec x z); try lia; reflexivity.
Qed.

Lemma str_le_lt_eq a b : str_le a b ↔ str_lt a b ∨ a = b.
Proof.
  unfold str_le, str_lt. rewrite <- str_cmp_eq.
  destruct (str_cmp a b); intuition congruence.
Qed.

Global Instance str_le_total : Total str_le.
Proof.
  intros a b. unfold str_le. rewrite (str_cmp_opp a b).
  destruct (str_cmp a b); simpl; intuition congruence.
Qed.

Global Instance str_le_trans : Transitive str_le.
Proof.
  intros a b c. rewrite !str_le_lt_eq. unfold str_lt.
  intros [Hab| ->] [Hbc| ->]; eauto using str_cmp_lt_trans.
Qed.

Global Instance str_le_antisym : AntiSymm (=) str_le.
Proof.
  intros a b. rewrite !str_le_lt_eq. unfold str_lt.
  intros [Hab| ->] [Hba|Heq]; auto.
  rewrite (str_cmp_opp a b), Hab in Hba. discriminate.
Qed.

(** The order is the lexicographic one: [a] is below [b] when [a] is a
    proper prefix of [b], or when at the first place where they differ
    the code point of [a] is the smaller one. *)
Lemma str_lt_lexicographic a b :
  str_lt a b ↔
  (∃ t, t ≠ [] ∧ b = a ++ t)
  ∨ (∃ p x y a' b', a = p ++ x :: a' ∧ b = p ++ y :: b' ∧ x < y).
Proof.
  unfold str_lt. revert b. induction a as [|x a IH]; intros [|y b]; simpl.
  - split; [done|]. intros [(t & Ht & Heq)|(p & ? & ? & ? & ? & Hp & _)]; [congruence|].
    by destruct p.
  - split; [|done]. intros _. left. by exists (y :: b).
  - split; [done|]. intros [(t & _ & [=])|(p & ? & ? & ? & ? & _ & Hp & _)].
    by destruct p.
  - destruct (N.compare_spec x y) as [->|Hlt|Hgt].
    + rewrite IH. split.
      * intros [(t & Ht & ->)|(p & x0 & y0 & a' & b' & -> & -> & Hxy)].
        -- left. by exists t.
        -- right. by exists (y :: p), x0, y0, a', b'.
      * intros [(t & Ht & [= ->])|(p & x0 & y0 & a' & b' & Ha & Hb & Hxy)].
        -- left. by exists t.
        -- destruct p as [|c p]; simplify_eq/=; [lia|].
           right. by exists p, x0, y0, a', b'.
    + split; [|done]. intros _. right. by exists [], x, y, a, b.
    + split; [done|].
      intros [(t & Ht & [= -> _])|(p & x0 & y0 & a' & b' & Ha & Hb & Hxy)]; [lia|].
      destruct p as [|c p]; simplify_eq/=; lia.
Qed.

Lemma str_lt_irrefl a : ¬ str_lt a a.
Proof. unfold str_lt. rewrite (proj2 (str_cmp_eq a a) eq_refl). discriminate. Qed.

(** A list in ascending order that repeats no element is in strictly
    ascending order. *)
Lemma Sorted_le_NoDup_lt (l : list str) :
  Sorted str_le l → NoDup l → Sorted str_lt l.
Proof.
  induction 1 as [|x l Hs IH Hhd]; intros Hnd; constructor.
  - apply IH. by apply NoDup_cons_1_2 in Hnd.
  - destruct Hhd as [|y l Hxy]; constructor.
    apply str_le_lt_eq in Hxy as [?| ->]; [done|].
    apply NoDup_cons_1_1 in Hnd. set_solver.
Qed.

Lemma sort_Permutation (l : list str) : sort l ≡ₚ l.
Proof. apply merge_sort_Permutation. Qed.

Lemma sort_Sorted (l : list str) : Sorted str_le (sort l).
Proof. apply (Sorted_merge_sort str_le). Qed.
End StrOrder.

(** * The word filter *)

Section WordFilter.
Context `{Interpreter}.
Implicit Types (w word line : str) (raw rest : list str).

Lemma is_alpha_ascii c : c < 128 → is_alpha c = ascii_letter c.
Proof.
  intros Hc. unfold is_alpha, latin1_alpha, in_range.
  replace (c <? 256) with true by (symmetry; apply N.ltb_lt; lia).
  repeat match goal with
  | |- context [?x =? ?y] => replace (x =? y) with false by (symmetry; apply N.eqb_neq; lia)
  | |- context [?x <=? c] =>
      lazymatch x with
      | 65 => fail | 97 => fail
      | _ => replace (x <=? c) with false by (symmetry; apply N.leb_gt; lia)
      end
  end.
  simpl. by rewrite !orb_false_r.
Qed.

Lemma latin1_tolower_ascii c :
  c < 128 → latin1_tolower c = if ascii_upper c then c + 32 else c.
Proof.
  intros Hc. unfold latin1_tolower, in_range.
  replace (0xC0 <=? c) with false by (symmetry; apply N.leb_gt; lia).
  replace (0xD8 <=? c) with false by (symmetry; apply N.leb_gt; lia).
  simpl. by rewrite !orb_false_r.
Qed.

Lemma latin1_tolower_letter c :
  ascii_letter c = true → 97 ≤ latin1_tolower c ≤ 122.
Proof.
  intros Hc. assert (c < 128) as Hlt.
  { revert Hc. unfold ascii_letter, ascii_upper, ascii_lower, in_range.
    rewrite orb_true_iff, !andb_true_iff, !N.leb_le. lia. }
  rewrite latin1_tolower_ascii by done. revert Hc.
  unfold ascii_letter, ascii_upper, ascii_lower, in_range.
  destruct (N.leb_spec 65 c), (N.leb_spec c 90), (N.leb_spec 97 c),
    (N.leb_spec c 122); simpl; intros; try discriminate; lia.
Qed.

Lemma latin1_tolower_lower c : 97 ≤ c ≤ 122 → latin1_tolower c = c.
Proof.
  intros Hc. rewrite latin1_tolower_ascii by lia. unfold ascii_upper, in_range.
  destruct (N.leb_spec 65 c), (N.leb_spec c 90); simpl; try done; lia.
Qed.

Lemma encode_ascii_Some w b :
  encode_ascii w = Some b → Forall (λ c, c < 128) w.
Proof.
  unfold encode_ascii. destruct (forallb _ w) eqn:Hall; [|done].
  intros _. apply Forall_forall. intros c Hc.
  rewrite forallb_forall in Hall. apply N.ltb_lt, Hall. by apply list_elem_of_In.
Qed.

Lemma isalpha_all w : isalpha w = true → Forall (λ c, is_alpha c = true) w.
Proof.
  destruct w as [|c w]; [done|]. unfold isalpha. rewrite forallb_forall.
  intros Hall. apply Forall_forall. intros x Hx. by apply Hall, list_elem_of_In.
Qed.

(** What passes steps 3 to 5 is five ASCII letters, and its lower case
    is a word of the final set. *)
Lemma accepted_five_lower w b :
  isalpha w = true → encode_ascii w = Some b → length w = 5%nat →
  five_lower (lower w).
Proof.
  intros Ha He Hl. split; [by unfold lower; rewrite length_fmap|].
  apply isalpha_all in Ha. apply encode_ascii_Some in He.
  unfold lower. apply Forall_fmap, Forall_forall. intros c Hc. simpl.
  rewrite Forall_forall in Ha, He.
  apply latin1_tolower_letter. rewrite <- is_alpha_ascii; auto.
Qed.

Lemma lower_five_lower w : five_lower w → lower w = w.
Proof.
  intros [_ Hw]. unfold lower. induction Hw as [|c w Hc Hw IH]; [done|].
  rewrite fmap_cons, IH, latin1_tolower_lower; done.
Qed.

(** The loop keeps [seen] and [clean] in step: [seen] holds exactly the
    words of [clean], which are words of the final set without
    repetition. *)
Lemma process_loop_invariant raw (seen : gset (list N)) (clean : list str) :
  (∀ w, w ∈ seen ↔ w ∈ clean) → NoDup clean → Forall five_lower clean →
  NoDup (process_loop raw seen clean)
  ∧ Forall five_lower (process_loop raw seen clean).
Proof.
  revert seen clean. induction raw as [|line rest IH]; intros seen clean Hs Hnd Hf;
    simpl; [done|].
  destruct (bool_decide _ || startswith _ _); [by apply IH|].
  destruct (isalpha (strip line)) eqn:Ha; simpl; [|by apply IH].
  destruct (encode_ascii (strip line)) as [b|] eqn:He; [|by apply IH].
  case_bool_decide as Hl; [by apply IH|].
  case_bool_decide as Hin; [by apply IH|].
  apply IH.
  - intros w. rewrite elem_of_union, elem_of_singleton, elem_of_app, list_elem_of_singleton, Hs.
    tauto.
  - apply NoDup_app. split_and!; [done| |apply NoDup_singleton].
    intros w Hw ->%list_elem_of_singleton. by apply Hin, Hs.
  - apply Forall_app. split; [done|]. apply Forall_singleton.
    eapply accepted_five_lower; eauto; lia.
Qed.

Lemma process_words_NoDup raw : NoDup (process_words raw).
Proof.
  unfold process_words. rewrite sort_Permutation.
  apply process_loop_invariant; [set_solver|constructor|constructor].
Qed.

Lemma process_words_five_lower raw : Forall five_lower (process_words raw).
Proof.
  unfold process_words. rewrite sort_Permutation.
  apply process_loop_invariant; [set_solver|constructor|constructor].
Qed.

(** A line whose token fails [isalpha] leaves the loop as it found it:
    the token is dropped at step 3, if not before. *)
Lemma process_loop_not_alpha line rest seen clean :
  isalpha (strip line) = false →
  process_loop (line :: rest) seen clean = process_loop rest seen clean.
Proof. intros Ha. simpl. rewrite Ha. by destruct (_ || _). Qed.

(** A line whose token has a character outside ASCII leaves the loop as
    it found it: the token is dropped at step 4, if not before. *)
Lemma process_loop_not_ascii line rest seen clean :
  encode_ascii (strip line) = None →
  process_loop (line :: rest) seen clean = process_loop rest seen clean.
Proof.
  intros He. simpl. rewrite He.
  destruct (_ || _); [done|]. by destruct (isalpha _).
Qed.

Lemma isalpha_not_letter w c : c ∈ w → is_alpha c = false → isalpha w = false.
Proof.
  intros Hc Hna. destruct (isalpha w) eqn:Ha; [|done].
  apply isalpha_all in Ha. rewrite Forall_forall in Ha.
  specialize (Ha c Hc). congruence.
Qed.

Lemma encode_ascii_not_ascii w c : c ∈ w → 128 ≤ c → encode_ascii w = None.
Proof.
  intros Hc Hge. destruct (encode_ascii w) as [b|] eqn:He; [|done].
  apply encode_ascii_Some in He. rewrite Forall_forall in He.
  specialize (He c Hc). simpl in He. lia.
Qed.

Lemma ascii_not_letter c :
  ascii_punctuation c || ascii_digit c = true → is_alpha c = false.
Proof.
  unfold ascii_punctuation, ascii_digit, in_range. intros Hc.
  assert (c < 128) as Hlt.
  { repeat (apply orb_prop in Hc as [Hc|Hc]);
      apply andb_prop in Hc as [_ ?%N.leb_le]; lia. }
  rewrite is_alpha_ascii by done.
  unfold ascii_letter, ascii_upper, ascii_lower, in_range.
  destruct (N.leb_spec 65 c), (N.leb_spec c 90), (N.leb_spec 97 c),
    (N.leb_spec c 122); simpl; try done; exfalso;
    repeat (apply orb_prop in Hc as [Hc|Hc]);
    apply andb_prop in Hc as [?%N.leb_le ?%N.leb_le]; lia.
Qed.
End WordFilter.

Lemma Sorted_adjacent {A} (R : relation A) (l : list A) i a b :
  Sorted R l → l !! i = Some a → l !! S i = Some b → R a b.
Proof.
  intros Hs. revert i. induction Hs as [|x l Hs IH Hhd]; intros i Ha Hb; [done|].
  destruct i as [|i]; simpl in *.
  - injection Ha as ->. destruct Hhd as [|y l Hxy]; [done|].
    simpl in Hb. by injection Hb as ->.
  - by eapply IH.
Qed.

(** C1. For every list of raw lines, every word that [process_words]
    returns has exactly five characters, each of them one of the
    lower-case ASCII letters a-z, and the returned list holds no word
    twice, not even after case folding. *)
Theorem process_words_word_set `{Interpreter} (raw : list str) :
  Forall five_lower (process_words raw)
  ∧ NoDup (process_words raw)
  ∧ NoDup (lower <$> process_words raw).
Proof.
  pose proof (process_words_five_lower raw) as Hf.
  pose proof (process_words_NoDup raw) as Hnd.
  split_and!; [done..|].
  replace (lower <$> process_words raw) with (process_words raw); [done|].
  induction Hf as [|w l Hw Hf IH]; [done|].
  rewrite fmap_cons, lower_five_lower by done. f_equal. apply IH.
  by apply NoDup_cons_1_2 in Hnd.
Qed.

(** C2. On the nine raw lines of the end-to-end scenario,
    [process_words] returns exactly apple, brick, fjord, in that order. *)
Theorem process_words_scenario `{Interpreter} :
  process_words
    [text "apple"; text "APPLE"; text "a cat"; text "brick"; text "#comment";
     text "ab'cd"; text "12345"; text "fjord"; text ""]
  = [text "apple"; text "brick"; text "fjord"].
Proof. vm_compute. reflexivity. Qed.

(** C3. For every list of raw lines, the list that [process_words]
    returns is strictly ascending in the order of [str], which compares
    code point by code point: each element is smaller than the one that
    follows it. *)
Theorem process_words_ascending `{Interpreter} (raw : list str) :
  Sorted str_lt (process_words raw)
  ∧ ∀ i a b, process_words raw !! i = Some a →
             process_words raw !! S i = Some b → str_lt a b.
Proof.
  assert (Sorted str_lt (process_words raw)) as Hs.
  { apply Sorted_le_NoDup_lt; [apply sort_Sorted|apply process_words_NoDup]. }
  split; [done|]. intros i a b. by apply Sorted_adjacent.
Qed.

(** C7.  The code at the token "cafés", which contains the accented
    letter U+00E9.  Step 3, [word.isalpha()], drops every token that
    contains a character that is not a letter (ASCII punctuation and
    digits among them), and the comment above it counts accented letters
    among what it rejects; but an accented letter is a letter for
    [str.isalpha], so the token passes step 3, as does every token made
    of letters of Latin-1.  It is the ASCII check of step 4 that drops
    the token. *)
Theorem isalpha_step_passes_accented_letter `{Interpreter} :
  (∀ w c, c ∈ w → is_alpha c = false → isalpha w = false)
  ∧ (∀ w c, c ∈ w → ascii_punctuation c || ascii_digit c = true → isalpha w = false)
  ∧ 233 ∈ [99; 97; 102; 233; 115]
  ∧ is_alpha 233 = true ∧ ascii_letter 233 = false
  ∧ strip [99; 97; 102; 233; 115] = [99; 97; 102; 233; 115]
  ∧ isalpha (strip [99; 97; 102; 233; 115]) = true
  ∧ encode_ascii (strip [99; 97; 102; 233; 115]) = None
  ∧ (∀ rest seen clean,
       process_loop ([99; 97; 102; 233; 115] :: rest) seen clean
       = process_loop rest seen clean)
  ∧ (∀ w, w ≠ [] → Forall (λ c, c < 256 ∧ latin1_alpha c = true) w →
       isalpha w = true)
  ∧ (∀ line rest seen clean, isalpha (strip line) = false →
       process_loop (line :: rest) seen clean = process_loop rest seen clean)
  ∧ (∀ line rest seen clean, encode_ascii (strip line) = None →
       process_loop (line :: rest) seen clean = process_loop rest seen clean).
Proof.
  split_and!.
  - apply isalpha_not_letter.
  - intros w c Hc Hp. eapply isalpha_not_letter; [done|]. by apply ascii_not_letter.
  - set_solver.
  - done.
  - done.
  - done.
  - done.
  - done.
  - intros rest seen clean. by apply process_loop_not_ascii.
  - intros [|c w] Hne Hw; [done|]. unfold isalpha. apply forallb_forall.
    intros x Hx%list_elem_of_In. rewrite Forall_forall in Hw.
    destruct (Hw x Hx) as [Hlt Hx']. unfold is_alpha.
    by replace (x <? 256) with true by (symmetry; apply N.ltb_lt; lia).
  - apply process_loop_not_alpha.
  - apply process_loop_not_ascii.
Qed.

(** * The matcher *)

Section MatcherFacts.
Context `{Interpreter}.
Implicit Types (st : mstate) (r : regex) (s p d : str).

Lemma run_Seq ic r1 r2 st :
  run ic (Seq r1 r2) st = run ic r1 st ≫= run ic r2.
Proof. done. Qed.

Lemma elem_of_read_char test st st' :
  st' ∈ read_char test st ↔
  ∃ ch, st.1 = ch :: st'.1 ∧ test ch = true ∧ st'.2 = st.2.
Proof.
  destruct st as [[|ch s] g], st' as [s' g']; unfold read_char; simpl.
  - rewrite elem_of_nil. split; [done|]. by intros (? & ? & _).
  - destruct (test ch) eqn:Ht.
    + rewrite list_elem_of_singleton. split.
      * intros [= -> ->]. eauto.
      * by intros (? & [= <- ->] & _ & ->).
    + rewrite elem_of_nil. split; [done|]. intros (? & [= <- ->] & ? & _). congruence.
Qed.

(** Whatever a repetition of [step] reaches, it reaches by reading a
    prefix of the text, when [step] does. *)
Lemma repeat_greedy_prefix (step : mstate → list mstate) :
  (∀ st st', st' ∈ step st → ∃ p, st.1 = p ++ st'.1) →
  ∀ fuel st st', st' ∈ repeat_greedy step fuel st → ∃ p, st.1 = p ++ st'.1.
Proof.
  intros Hstep. induction fuel as [|fuel IH]; intros st st'; simpl.
  - intros ->%list_elem_of_singleton. by exists [].
  - rewrite elem_of_app, list_elem_of_singleton.
    intros [(st1 & Hin & Hst1)%list_elem_of_bind| ->]; [|by exists []].
    case_bool_decide; [|by apply elem_of_nil in Hin].
    apply Hstep in Hst1 as [p1 Hp1]. apply IH in Hin as [p2 Hp2].
    exists (p1 ++ p2). by rewrite Hp1, Hp2, (assoc_L (++)).
Qed.

(** The matcher reads the text from left to right: every position it
    reaches lies after a prefix of the text it started from. *)
Lemma run_prefix ic r st st' :
  st' ∈ run ic r st → ∃ p, st.1 = p ++ st'.1.
Proof.
  revert st st'. induction r as [|av| | | |r1 IH1 r2 IH2|r1 IH1 r2 IH2|r IH|r IH|r IH|i r IH];
    intros st st'; cbn [run].
  - intros ->%list_elem_of_singleton. by exists [].
  - intros (ch & -> & _)%elem_of_read_char. by exists [ch].
  - intros (ch & -> & _)%elem_of_read_char. by exists [ch].
  - intros (ch & -> & _)%elem_of_read_char. by exists [ch].
  - case_bool_decide; [|by intros ?%elem_of_nil].
    intros ->%list_elem_of_singleton. by exists [].
  - intros (st1 & [p2 Hp2]%IH2 & [p1 Hp1]%IH1)%list_elem_of_bind.
    exists (p1 ++ p2). by rewrite Hp1, Hp2, (assoc_L (++)).
  - rewrite elem_of_app. intros [?|?]; eauto.
  - rewrite elem_of_app, list_elem_of_singleton. intros [?| ->]; eauto. by exists [].
  - by apply repeat_greedy_prefix.
  - intros (st1 & [p2 Hp2]%(repeat_greedy_prefix _ IH) & [p1 Hp1]%IH)%list_elem_of_bind.
    exists (p1 ++ p2). by rewrite Hp1, Hp2, (assoc_L (++)).
  - intros (st1 & -> & [p Hp]%IH)%list_elem_of_fmap. by exists p.
Qed.

(** A repetition of a single-character test reads a run of characters
    that pass the test and leaves the groups alone. *)
Lemma repeat_greedy_read_char (step : mstate → list mstate) test :
  (∀ st, step st = read_char test st) →
  ∀ fuel st st', st' ∈ repeat_greedy step fuel st →
    ∃ p, st.1 = p ++ st'.1 ∧ st'.2 = st.2 ∧ Forall (λ c, test c = true) p.
Proof.
  intros Hstep. induction fuel as [|fuel IH]; intros st st'; simpl.
  - intros ->%list_elem_of_singleton. by exists [].
  - rewrite elem_of_app, list_elem_of_singleton.
    intros [(st1 & Hin & Hst1)%list_elem_of_bind| ->]; [|by exists []].
    case_bool_decide; [|by apply elem_of_nil in Hin].
    rewrite Hstep in Hst1. apply elem_of_read_char in Hst1 as (ch & Hch & Ht & Hg).
    apply IH in Hin as (p & Hp & Hg' & Hall).
    exists (ch :: p). rewrite Hch, Hp, Hg', Hg. split_and!; [done..|].
    by constructor.
Qed.

Lemma int_digits_decimal d acc :
  Forall (λ c, is_decimal c = true) d → ∃ level, int_digits acc d = Ok level.
Proof.
  intros Hd. revert acc. induction Hd as [|c d Hc Hd IH]; intros acc; simpl; [eauto|].
  unfold is_decimal in Hc. apply bool_decide_eq_true in Hc as [v Hv].
  rewrite Hv. apply IH.
Qed.

(** The tail of the pattern, [\.(\d+)$], reads a dot and a run of
    decimal digits that ends the text or stands before a final
    newline; the run is the second group. *)
Lemma level_part_sound st st' :
  st' ∈ run true (Seq (Lit 46) (Seq (Group 2 (Plus Digit)) Eol)) st →
  ∃ d tl, st.1 = [46] ++ d ++ tl ∧ (tl = [] ∨ tl = [10]) ∧ d ≠ []
          ∧ Forall (λ c, is_decimal c = true) d ∧ st'.2 !! 2%nat = Some d.
Proof.
  cbn [run]. intros (st1 & Hrest & Hdot)%list_elem_of_bind.
  apply elem_of_read_char in Hdot as (ch & Hch & Hlit & _).
  unfold lit_match in Hlit. simpl in Hlit. apply N.eqb_eq in Hlit as ->.
  apply list_elem_of_bind in Hrest as (st2 & Heol & Hgrp).
  case_bool_decide as Htl; [|by apply elem_of_nil in Heol].
  apply list_elem_of_singleton in Heol as ->.
  apply list_elem_of_fmap in Hgrp as (st3 & -> & Hplus).
  apply list_elem_of_bind in Hplus as (st4 & Hrep & Hone).
  apply elem_of_read_char in Hone as (c & Hc & Hdec & _).
  apply (repeat_greedy_read_char _ is_decimal) in Hrep as (p & Hp & _ & Hall); [|done].
  simpl in *. exists (c :: p), st3.1. rewrite Hch, Hc, Hp.
  split_and!; [done|done|done|by constructor|].
  rewrite lookup_insert_eq. f_equal.
  replace (length (c :: p ++ st3.1) - length st3.1)%nat with (length (c :: p))
    by (simpl; rewrite length_app; lia).
  apply (take_app_length (c :: p)).
Qed.

(** ** The matcher finds every match *)

Lemma elem_of_same st st' :
  st' ∈ [st] ↔ st.1 = [] ++ st'.1 ∧ st'.2 = st.2.
Proof.
  rewrite list_elem_of_singleton. destruct st, st'; simpl. split.
  - by intros [= -> ->].
  - by intros [-> ->].
Qed.

(** A repetition of [step] reads a run of texts that [step] reads, none
    of them empty, as long as the fuel outlasts the text. *)
Lemma repeat_greedy_rounds (step : mstate → list mstate) (L : str → Prop) :
  (∀ st st', st' ∈ step st ↔ ∃ p, st.1 = p ++ st'.1 ∧ st'.2 = st.2 ∧ L p) →
  ∀ fuel st st', (length st.1 < fuel)%nat →
    st' ∈ repeat_greedy step fuel st ↔
    ∃ ps, st.1 = concat ps ++ st'.1 ∧ st'.2 = st.2
          ∧ Forall (λ q, L q ∧ q ≠ []) ps.
Proof.
  intros Hstep fuel st st' Hfuel. split.
  - revert st Hfuel. induction fuel as [|fuel IH]; intros st Hfuel; [lia|].
    simpl. rewrite elem_of_app.
    intros [(st1 & Hin & Hst1)%list_elem_of_bind|Hst%elem_of_same].
    + case_bool_decide as Hlt; [|by apply elem_of_nil in Hin].
      apply Hstep in Hst1 as (p & Hp & Hg & HL).
      apply IH in Hin as (ps & Hps & Hg' & Hall); [|lia].
      exists (p :: ps). simpl. rewrite Hp, Hps, Hg', Hg, (assoc_L (++)).
      split_and!; [done..|]. constructor; [|done]. split; [done|].
      intros ->. simpl in Hp. rewrite Hp in Hlt. lia.
    + exists []. by destruct Hst.
  - intros (ps & Hps & Hg & Hall). revert fuel st Hfuel Hps Hg.
    induction Hall as [|p ps [HL Hne] Hall IH]; intros fuel st Hfuel Hps Hg;
      (destruct fuel as [|fuel]; [lia|]); simpl; rewrite elem_of_app.
    + right. by apply elem_of_same.
    + left. apply list_elem_of_bind. exists (concat ps ++ st'.1, st.2). split.
      * simpl in Hps. rewrite <- (assoc_L (++)) in Hps.
        rewrite bool_decide_eq_true_2.
        -- apply IH; [|done|done]. simpl.
           rewrite Hps, length_app in Hfuel. destruct p; [done|simpl in Hfuel; lia].
        -- simpl. rewrite Hps, (length_app p). destruct p; [done|simpl; lia].
      * apply Hstep. exists p. simpl in Hps. by rewrite <- (assoc_L (++)) in Hps.
Qed.

(** The matcher is adequate for the patterns without groups: it reaches
    a position exactly when the text read up to it is one the pattern
    reads, and it leaves the groups alone. *)
Lemma run_lang ic r :
  simple r = true →
  ∀ st st', st' ∈ run ic r st ↔
            ∃ p, st.1 = p ++ st'.1 ∧ st'.2 = st.2 ∧ lang ic r p.
Proof.
  induction r as [|av| | | |r1 IH1 r2 IH2|r1 IH1 r2 IH2|r IH|r IH|r IH|i r IH];
    intros Hs st st'; cbn [run lang]; try discriminate.
  - rewrite elem_of_same. split; [intros []; by exists []|by intros (p & ? & ? & ->)].
  - rewrite elem_of_read_char. split.
    + intros (ch & ? & ? & ?). exists [ch]. eauto.
    + intros (p & ? & ? & ch & -> & ?). eauto.
  - rewrite elem_of_read_char. split.
    + intros (ch & ? & Hch%negb_true_iff%N.eqb_neq & ?). exists [ch]. eauto.
    + intros (p & ? & ? & ch & -> & Hch). exists ch. split_and!; [done| |done].
      by apply negb_true_iff, N.eqb_neq.
  - rewrite elem_of_read_char. split.
    + intros (ch & ? & ? & ?). exists [ch]. eauto.
    + intros (p & ? & ? & ch & -> & ?). eauto.
  - simpl in Hs. apply andb_prop in Hs as [Hs1 Hs2].
    rewrite list_elem_of_bind. split.
    + intros (st1 & (p2 & Hp2 & Hg2 & HL2)%(IH2 Hs2) & (p1 & Hp1 & Hg1 & HL1)%(IH1 Hs1)).
      exists (p1 ++ p2). rewrite Hp1, Hp2, Hg2, Hg1, (assoc_L (++)). eauto 10.
    + intros (p & Hp & Hg & p1 & p2 & -> & HL1 & HL2).
      exists (p2 ++ st'.1, st.2). split.
      * apply (IH2 Hs2). exists p2. eauto.
      * apply (IH1 Hs1). exists p1. simpl. by rewrite Hp, <- (assoc_L (++)).
  - simpl in Hs. apply andb_prop in Hs as [Hs1 Hs2].
    rewrite elem_of_app, (IH1 Hs1), (IH2 Hs2). split.
    + intros [(p & ? & ? & ?)|(p & ? & ? & ?)]; exists p; eauto.
    + intros (p & ? & ? & [?|?]); [left|right]; exists p; eauto.
  - simpl in Hs. rewrite elem_of_app, (IH Hs), elem_of_same. split.
    + intros [(p & ? & ? & ?)|[? ?]]; [exists p|exists []]; eauto.
    + intros (p & ? & ? & [?| ->]); [left; exists p|right]; eauto.
  - simpl in Hs. rewrite (repeat_greedy_rounds _ _ (IH Hs)) by lia. split.
    + intros (ps & ? & ? & ?). exists (concat ps). eauto.
    + intros (p & ? & ? & ps & -> & ?). exists ps. eauto.
  - simpl in Hs. rewrite list_elem_of_bind. split.
    + intros (st1 & Hrep & (q & Hq & Hg & HL)%(IH Hs)).
      apply (repeat_greedy_rounds _ _ (IH Hs)) in Hrep as (ps & Hps & Hg' & Hall); [|lia].
      exists (q ++ concat ps). rewrite Hq, Hps, Hg', Hg, (assoc_L (++)). eauto 10.
    + intros (p & Hp & Hg & q & ps & -> & HL & Hall).
      exists (concat ps ++ st'.1, st.2). split.
      * apply (repeat_greedy_rounds _ _ (IH Hs)); [simpl; lia|]. exists ps. eauto.
      * apply (IH Hs). exists q. simpl. by rewrite Hp, <- (assoc_L (++)).
Qed.
(** ** What the pattern matches *)

Lemma lang_literals ic (l : list N) p :
  lang ic (foldr (λ c r, Seq (Lit c) r) Empty l) p
  ↔ Forall2 (λ av ch, lit_match ic av ch = true) l p.
Proof.
  revert p. induction l as [|av l IH]; intros p; simpl.
  - split; [by intros ->|by intros ->%Forall2_nil_inv_l].
  - split.
    + intros (p1 & p2 & -> & (ch & -> & Hch) & Hp2%IH). by constructor.
    + intros (ch & p2 & Hch & Hp2%IH & ->)%Forall2_cons_inv_l.
      exists [ch], p2. eauto.
Qed.

Lemma lang_lits w p : lang true (lits w) p ↔ spells w p.
Proof. apply lang_literals. Qed.

Lemma lang_star_any ic p : lang ic (Star Any) p ↔ 10 ∉ p.
Proof.
  simpl. split.
  - intros (ps & -> & Hall).
    induction Hall as [|q ps [(ch & -> & Hch) _] Hall IH]; simpl.
    + apply not_elem_of_nil.
    + apply not_elem_of_cons. split; [done|apply IH].
  - intros Hp. exists ((λ c, [c]) <$> p). split.
    + induction p as [|c p IH]; [done|]. apply not_elem_of_cons in Hp as [_ Hp].
      csimpl. f_equal. by apply IH.
    + induction p as [|c p IH]; [constructor|]. apply not_elem_of_cons in Hp as [Hc Hp].
      csimpl. constructor; [|by apply IH]. split; [|done]. exists c. eauto.
Qed.

Lemma lang_plus_digit ic d :
  lang ic (Plus Digit) d ↔ d ≠ [] ∧ Forall (λ c, is_decimal c = true) d.
Proof.
  simpl. split.
  - intros (q & ps & -> & (ch & -> & Hch) & Hall). split; [done|].
    constructor; [done|].
    induction Hall as [|q ps [(c & -> & Hc) _] Hall IH]; simpl; [constructor|].
    by constructor.
  - intros [Hne Hd]. destruct Hd as [|c d Hc Hd]; [done|].
    exists [c], ((λ c, [c]) <$> d). split_and!; [|by eauto|].
    + simpl. f_equal. clear. induction d as [|x d IH]; [done|]. csimpl. by f_equal.
    + clear Hne. induction Hd as [|x d Hx Hd IH]; [constructor|].
      csimpl. constructor; [|done]. split; [|done]. exists x. eauto.
Qed.

Lemma lang_Alt ic r1 r2 p : lang ic (Alt r1 r2) p ↔ lang ic r1 p ∨ lang ic r2 p.
Proof. done. Qed.

Lemma lang_stem stem : lang true STEM stem ↔ stem_ok stem.
Proof.
  unfold STEM, stem_ok. rewrite !lang_Alt, !lang_lits. split.
  - intros [?|[?|[?|[?|[?|[?|(x & sfx & -> & Hx%lang_star_any & w & o & -> & Hw%lang_lits & Ho)]]]]]];
      [left; eexists; split; [|eassumption]; set_solver..|].
    right. exists x, (w ++ o). split_and!; [done..|].
    destruct Ho as [(ch & -> & Hch)| ->].
    + right. unfold spells in *. change (text "-words") with (text "-word" ++ [115]).
      apply Forall2_app; [done|]. by repeat constructor.
    + left. by rewrite app_nil_r.
  - intros [(w & Hw & Hs)|(x & sfx & -> & Hx & Hsfx)].
    + repeat (apply elem_of_cons in Hw as [->|Hw]; [tauto|]). by apply elem_of_nil in Hw.
    + do 6 right. exists x, sfx. split_and!; [done|by apply lang_star_any|].
      destruct Hsfx as [Hsfx|Hsfx].
      * exists sfx, []. rewrite app_nil_r, lang_lits. split_and!; [done..|by right].
      * unfold spells in Hsfx. change (text "-words") with (text "-word" ++ [115]) in Hsfx.
        apply Forall2_app_inv_l in Hsfx as (w & o & Hw & Ho & ->).
        apply Forall2_cons_inv_l in Ho as (ch & o' & Hch & ->%Forall2_nil_inv_l & ->).
        exists w, [ch]. rewrite lang_lits. split_and!; [done..|]. left. by exists ch.
Qed.

Lemma word_file_pattern_parts :
  WORD_FILE_PATTERN
  = Seq (Group 1 STEM) (Seq (Lit 46) (Seq (Group 2 (Plus Digit)) Eol)).
Proof. reflexivity. Qed.

Lemma level_part_complete st d tl :
  st.1 = [46] ++ d ++ tl → (tl = [] ∨ tl = [10]) → d ≠ [] →
  Forall (λ c, is_decimal c = true) d →
  (tl, <[2%nat := d]> st.2)
  ∈ run true (Seq (Lit 46) (Seq (Group 2 (Plus Digit)) Eol)) st.
Proof.
  intros Hst Htl Hne Hd. cbn [run].
  apply list_elem_of_bind. exists (d ++ tl, st.2). split.
  - apply list_elem_of_bind. exists (tl, <[2%nat := d]> st.2). split.
    + simpl. rewrite bool_decide_eq_true_2 by done. apply list_elem_of_here.
    + apply list_elem_of_fmap. exists (tl, st.2). split.
      * cbn [fst snd]. f_equal. f_equal.
        by rewrite length_app, Nat.add_sub, take_app_length.
      * apply (run_lang true (Plus Digit) eq_refl). exists d.
        split_and!; [done..|]. by apply lang_plus_digit.
  - apply elem_of_read_char. exists 46. rewrite Hst. done.
Qed.

(** A name the pattern matches is a stem, a dot and a run of decimal
    digits, with nothing after it but for one final newline, and the
    second group of the match is that run. *)
Lemma word_file_pattern_sound s groups :
  re_match true WORD_FILE_PATTERN s = Some groups →
  ∃ stem d tl, s = stem ++ [46] ++ d ++ tl ∧ stem_ok stem
               ∧ (tl = [] ∨ tl = [10]) ∧ d ≠ []
               ∧ Forall (λ c, is_decimal c = true) d ∧ groups !! 2%nat = Some d.
Proof.
  rewrite word_file_pattern_parts. unfold re_match.
  destruct (head _) as [st|] eqn:Hhd; [|done].
  intros [= <-]. apply head_Some_elem_of in Hhd. rewrite run_Seq in Hhd.
  apply list_elem_of_bind in Hhd as (st1 & Hlevel & Hstem).
  cbn [run] in Hstem. apply list_elem_of_fmap in Hstem as (st0 & -> & Hstem).
  apply (run_lang true STEM eq_refl) in Hstem as (stem & Hs & _ & Hstem%lang_stem).
  apply level_part_sound in Hlevel as (d & tl & Hd & ? & ? & ? & ?).
  exists stem, d, tl. simpl in *. by rewrite Hs, Hd.
Qed.

(** The pattern matches a name exactly when the name is a stem, a dot, a
    run of decimal digits, and nothing more but for one final newline. *)
Lemma word_file_pattern_matches s :
  is_Some (re_match true WORD_FILE_PATTERN s) ↔
  ∃ stem d tl, s = stem ++ [46] ++ d ++ tl ∧ stem_ok stem
               ∧ (tl = [] ∨ tl = [10]) ∧ d ≠ []
               ∧ Forall (λ c, is_decimal c = true) d.
Proof.
  split.
  - intros [groups (stem & d & tl & ? & ? & ? & ? & ? & _)%word_file_pattern_sound].
    by exists stem, d, tl.
  - rewrite word_file_pattern_parts. unfold re_match.
    intros (stem & d & tl & -> & Hstem%lang_stem & Htl & Hne & Hd).
    assert ((tl, <[2%nat := d]> (<[1%nat := stem]> ∅))
            ∈ run true (Seq (Group 1 STEM) (Seq (Lit 46) (Seq (Group 2 (Plus Digit)) Eol)))
                (stem ++ [46] ++ d ++ tl, ∅)) as Hin.
    { rewrite run_Seq. apply list_elem_of_bind.
      exists ([46] ++ d ++ tl, <[1%nat := stem]> ∅). split.
      - by apply (level_part_complete (_, _)).
      - cbn [run]. apply list_elem_of_fmap. exists ([46] ++ d ++ tl, ∅). split.
        + cbn [fst snd]. f_equal. f_equal.
          by rewrite length_app, Nat.add_sub, take_app_length.
        + apply (run_lang true STEM eq_refl). exists stem. by split_and!. }
    destruct (run _ _ _) as [|st l]; [by apply elem_of_nil in Hin|].
    by eexists.
Qed.
End MatcherFacts.

(** * Which members of the archive are scanned *)

Section Qualification.
Context `{Interpreter}.
Implicit Types (name file dirs s : str).

Lemma int_nonempty_decimal d :
  d ≠ [] → Forall (λ c, is_decimal c = true) d →
  (∃ level, int (Some d) = Ok level) ∨ int (Some d) = Raise ValueError.
Proof.
  intros Hne Hd. destruct d as [|c d]; [done|]. unfold int.
  destruct int_max_str_digits_over as [over|].
  - case_bool_decide; [by right|]. left. by apply int_digits_decimal.
  - left. by apply int_digits_decimal.
Qed.

(** The level of a matched name can be read: on the second group [int]
    raises nothing but the [ValueError] of the limit on digits. *)
Lemma matched_level_reads s groups :
  re_match true WORD_FILE_PATTERN s = Some groups →
  (∃ level, int (groups !! 2%nat) = Ok level)
  ∨ int (groups !! 2%nat) = Raise ValueError.
Proof.
  intros (stem & d & tl & _ & _ & _ & Hne & Hd & ->)%word_file_pattern_sound.
  by apply int_nonempty_decimal.
Qed.

Lemma in_levels_bounds level :
  in_levels level = true ↔ (MIN_LEVEL ≤ level ≤ MAX_LEVEL)%Z.
Proof. unfold in_levels. rewrite andb_true_iff, !Z.leb_le. done. Qed.

Lemma qualifies_sound name :
  qualifies name = true →
  ∃ stem digits tail level,
    basename name = stem ++ [46] ++ digits ++ tail ∧ stem_ok stem
    ∧ (tail = [] ∨ tail = [10]) ∧ digits ≠ []
    ∧ Forall (λ c, is_decimal c = true) digits
    ∧ int (Some digits) = Ok level
    ∧ (MIN_LEVEL ≤ level ≤ MAX_LEVEL)%Z.
Proof.
  unfold qualifies.
  destruct (re_match _ _ _) as [groups|] eqn:Hm; [|done].
  apply word_file_pattern_sound in Hm as (stem & d & tl & Hs & Hok & Htl & Hne & Hd & ->).
  destruct (int (Some d)) as [level|] eqn:Hint; [|done].
  intros Hin%in_levels_bounds. by exists stem, d, tl, level.
Qed.

(** One round of the loop of [extract_words].  The lines of a qualifying
    member are appended, unless it is not a file or cannot be read. *)
Lemma extract_loop_qualifies m rest raw_words files_read :
  qualifies (m_name m) = true →
  extract_loop (m :: rest) raw_words files_read =
  match m_data m with
  | ExtractRaises e => Raise e
  | Data t => extract_loop rest (raw_words ++ splitlines t) (S files_read)
  | _ => extract_loop rest raw_words files_read
  end.
Proof.
  cbn [extract_loop]. unfold qualifies.
  destruct (re_match _ _ _) as [groups|] eqn:Hm; [|done].
  destruct (int (groups !! 2%nat)) as [level|]; [|done]. cbn.
  intros ->. by destruct (m_data m).
Qed.

(** A member that does not qualify adds nothing: the loop passes it
    over, or it ends with the [ValueError] of [int] when the digits of
    the name are more than the interpreter reads. *)
Lemma extract_loop_not_qualifies m rest raw_words files_read :
  qualifies (m_name m) = false →
  extract_loop (m :: rest) raw_words files_read
  = extract_loop rest raw_words files_read
  ∨ extract_loop (m :: rest) raw_words files_read = Raise ValueError.
Proof.
  cbn [extract_loop]. unfold qualifies.
  destruct (re_match _ _ _) as [groups|] eqn:Hm; [|by left].
  apply matched_level_reads in Hm as [[level ->]| ->]; cbn; [|by right].
  intros ->. by left.
Qed.

Lemma rfind_absent x s : x ∉ s → rfind x s = (-1)%Z.
Proof.
  induction s as [|c s IH]; [done|]. intros [Hc Hs]%not_elem_of_cons.
  simpl. rewrite IH by done. simpl.
  by replace (c =? x) with false by (symmetry; apply N.eqb_neq; congruence).
Qed.

Lemma rfind_last x dirs file :
  x ∉ file → rfind x (dirs ++ x :: file) = Z.of_nat (length dirs).
Proof.
  intros Hx. induction dirs as [|c dirs IH]; simpl.
  - rewrite rfind_absent by done. simpl. by rewrite N.eqb_refl.
  - rewrite IH. destruct (Z.leb_spec 0 (Z.of_nat (length dirs))); lia.
Qed.

Lemma basename_no_slash file : 47 ∉ file → basename file = file.
Proof. intros Hf. unfold basename. by rewrite rfind_absent. Qed.

Lemma basename_path dirs file :
  47 ∉ file → basename (dirs ++ [47] ++ file) = file.
Proof.
  intros Hf. unfold basename. simpl. rewrite rfind_last by done.
  replace (Z.to_nat (Z.of_nat (length dirs) + 1)) with (length (dirs ++ [47]))
    by (rewrite length_app; simpl; lia).
  rewrite (cons_middle 47 dirs file), (assoc_L (++)). apply drop_app_length.
Qed.

(** The loop reads the one member of an archive, a file whose text is
    [t], exactly when the member qualifies. *)
Lemma extract_loop_reads m t :
  m_data m = Data t →
  extract_loop [m] [] 0%nat = Ok (splitlines t, 1%nat) ↔ qualifies (m_name m) = true.
Proof.
  intros Hd. destruct (qualifies (m_name m)) eqn:Hq.
  - by rewrite extract_loop_qualifies, Hd.
  - split; [|done].
    by destruct (extract_loop_not_qualifies m [] [] 0%nat Hq) as [-> | ->].
Qed.

(** The loop looks at the last component of a member's path only. *)
Lemma extract_loop_basename dirs file d rest raw_words files_read :
  47 ∉ file →
  extract_loop ({| m_name := dirs ++ [47] ++ file; m_data := d |} :: rest)
    raw_words files_read
  = extract_loop ({| m_name := file; m_data := d |} :: rest) raw_words files_read.
Proof.
  intros Hf. cbn [extract_loop m_name m_data].
  by rewrite basename_path, basename_no_slash.
Qed.
End Qualification.

(** C5. A member of the archive is scanned only if its base name ends
    in a dot and a run of decimal digits (the trailing integer) that
    [int] reads as a level with [MIN_LEVEL <= level <= MAX_LEVEL], both
    bounds included.  The loop of [extract_words] reads a member that
    passes these tests (its lines are added and it is counted, when it is
    a file that can be read), and a member that does not pass them adds
    nothing (the loop passes it over, or ends with the [ValueError] of
    [int]); an archive of one file is read exactly when the file passes.
    With the bounds 10 and 70, english-words.85 is left out and
    english-words.60 is read, as are english-words.10 and
    english-words.70. *)
Theorem qualifies_level_in_bounds `{Interpreter} :
  (∀ name, qualifies name = true →
     ∃ stem digits tail level,
       basename name = stem ++ [46] ++ digits ++ tail ∧ stem_ok stem
       ∧ (tail = [] ∨ tail = [10]) ∧ digits ≠ []
       ∧ Forall (λ c, is_decimal c = true) digits
       ∧ int (Some digits) = Ok level
       ∧ (MIN_LEVEL ≤ level ≤ MAX_LEVEL)%Z)
  ∧ (∀ m rest raw_words files_read, qualifies (m_name m) = false →
       extract_loop (m :: rest) raw_words files_read
       = extract_loop rest raw_words files_read
       ∨ extract_loop (m :: rest) raw_words files_read = Raise ValueError)
  ∧ (MIN_LEVEL = 10 ∧ MAX_LEVEL = 70)%Z
  ∧ qualifies (text "english-words.85") = false
  ∧ qualifies (text "english-words.60") = true
  ∧ qualifies (text "english-words.10") = true
  ∧ qualifies (text "english-words.70") = true
  ∧ qualifies (text "english-words.9") = false
  ∧ qualifies (text "english-words.71") = false
  ∧ (∀ m rest raw_words files_read, qualifies (m_name m) = true →
       extract_loop (m :: rest) raw_words files_read
       = match m_data m with
         | ExtractRaises e => Raise e
         | Data t => extract_loop rest (raw_words ++ splitlines t) (S files_read)
         | _ => extract_loop rest raw_words files_read
         end)
  ∧ (∀ m t, m_data m = Data t →
       (extract_loop [m] [] 0%nat = Ok (splitlines t, 1%nat)
        ↔ qualifies (m_name m) = true))
  ∧ (∀ m t, m_data m = Data t →
       extract_loop [m] [] 0%nat = Ok (splitlines t, 1%nat) →
       ∃ stem digits tail level,
         basename (m_name m) = stem ++ [46] ++ digits ++ tail
         ∧ digits ≠ [] ∧ Forall (λ c, is_decimal c = true) digits
         ∧ int (Some digits) = Ok level
         ∧ (MIN_LEVEL ≤ level ≤ MAX_LEVEL)%Z)
  ∧ extract_words
      (Members [ {| m_name := text "english-words.85"; m_data := Data (text "zloty") |};
                 {| m_name := text "english-words.60"; m_data := Data (text "apple") |} ])
    = Ok [text "apple"]
  ∧ extract_loop
      [ {| m_name := text "english-words.85"; m_data := Data (text "zloty") |};
        {| m_name := text "english-words.60"; m_data := Data (text "apple") |} ]
      [] 0%nat
    = Ok ([text "apple"], 1%nat).
Proof.
  split; [apply qualifies_sound|]. split.
  { intros m rest raw_words files_read Hq. by apply extract_loop_not_qualifies. }
  assert (∀ m rest raw_words files_read, qualifies (m_name m) = true →
       extract_loop (m :: rest) raw_words files_read
       = match m_data m with
         | ExtractRaises e => Raise e
         | Data t => extract_loop rest (raw_words ++ splitlines t) (S files_read)
         | _ => extract_loop rest raw_words files_read
         end) as Hreads by apply extract_loop_qualifies.
  assert (∀ m t, m_data m = Data t →
       extract_loop [m] [] 0%nat = Ok (splitlines t, 1%nat) →
       ∃ stem digits tail level,
         basename (m_name m) = stem ++ [46] ++ digits ++ tail
         ∧ digits ≠ [] ∧ Forall (λ c, is_decimal c = true) digits
         ∧ int (Some digits) = Ok level
         ∧ (MIN_LEVEL ≤ level ≤ MAX_LEVEL)%Z) as Honly.
  { intros m t Hd Hread%(extract_loop_reads m t Hd).
    destruct (qualifies_sound _ Hread) as (stem & digits & tail & level & ? & _ & _ & ?).
    by exists stem, digits, tail, level. }
  pose proof extract_loop_reads as Hiff.
  destruct H as [alpha tolower decimal [over|]];
    (split_and!; [vm_compute; reflexivity..|exact Hreads|exact Hiff|exact Honly
                 |vm_compute; reflexivity|vm_compute; reflexivity]).
Qed.

(** C9. Whether a member is scanned is decided on the base name of its
    path: the loop of [extract_words] drops the directories in front of
    the last slash before it applies the pattern, so it treats a member
    at any depth as it treats a member named by the last path component
    alone, and it reads such a member exactly when the pattern matches
    that component and the level of the match is within the bounds. *)
Theorem qualifies_on_basename `{Interpreter} (dirs file : str) :
  47 ∉ file →
  basename (dirs ++ [47] ++ file) = file
  ∧ basename file = file
  ∧ qualifies (dirs ++ [47] ++ file) = qualifies file
  ∧ (qualifies file = true ↔
     ∃ groups level,
       re_match true WORD_FILE_PATTERN file = Some groups
       ∧ int (groups !! 2%nat) = Ok level
       ∧ (MIN_LEVEL ≤ level ≤ MAX_LEVEL)%Z)
  ∧ (∀ d rest raw_words files_read,
       extract_loop ({| m_name := dirs ++ [47] ++ file; m_data := d |} :: rest)
         raw_words files_read
       = extract_loop ({| m_name := file; m_data := d |} :: rest)
           raw_words files_read)
  ∧ (∀ t,
       extract_loop [ {| m_name := dirs ++ [47] ++ file; m_data := Data t |} ] [] 0%nat
       = Ok (splitlines t, 1%nat)
       ↔ ∃ groups level,
           re_match true WORD_FILE_PATTERN file = Some groups
           ∧ int (groups !! 2%nat) = Ok level
           ∧ (MIN_LEVEL ≤ level ≤ MAX_LEVEL)%Z)
  ∧ (∀ t,
       extract_words (Members [ {| m_name := dirs ++ [47] ++ file; m_data := Data t |} ])
       = extract_words (Members [ {| m_name := file; m_data := Data t |} ])).
Proof.
  intros Hf.
  assert (qualifies file = true ↔
     ∃ groups level,
       re_match true WORD_FILE_PATTERN file = Some groups
       ∧ int (groups !! 2%nat) = Ok level
       ∧ (MIN_LEVEL ≤ level ≤ MAX_LEVEL)%Z) as Hq.
  { unfold qualifies. rewrite basename_no_slash by done. split.
    + destruct (re_match _ _ _) as [groups|] eqn:Hm; [|done].
      destruct (int (groups !! 2%nat)) as [level|] eqn:Hint; [|done].
      intros Hin%in_levels_bounds. exists groups, level. by rewrite Hint.
    + intros (groups & level & -> & -> & Hin). by apply in_levels_bounds. }
  split_and!.
  - by apply basename_path.
  - by apply basename_no_slash.
  - unfold qualifies. by rewrite basename_path, basename_no_slash.
  - exact Hq.
  - intros d rest raw_words files_read. by apply extract_loop_basename.
  - intros t. rewrite extract_loop_basename by done. rewrite <- Hq.
    by apply (extract_loop_reads {| m_name := file; m_data := Data t |}).
  - intros t. unfold extract_words. by rewrite extract_loop_basename.
Qed.

Lemma qualifies_on_basename_witness :
(47 ∉ text "english-words.50")
  ∧ @qualifies latin1_interpreter (text "scowl-x/final" ++ [47] ++ text "english-words.50") = true
  ∧ @extract_loop latin1_interpreter
      [ {| m_name := text "scowl-x/final" ++ [47] ++ text "english-words.50";
           m_data := Data (text "apple") |} ] [] 0%nat
    = Ok ([text "apple"], 1%nat).
Proof.
  assert (47 ∉ text "english-words.50") as Hf.
  { apply (bool_decide_unpack _). vm_compute. exact I. }
  split; [done|].
  destruct (@qualifies_on_basename latin1_interpreter (text "scowl-x/final") _ Hf)
    as (_ & _ & -> & _ & -> & _).
  split; vm_compute; reflexivity.
Defined.

(** * The case of the letters of a name *)

Section CaseVariants.
Context `{Interpreter}.
Implicit Types (x y c : N) (a b : str) (st : mstate) (r : regex).

(** A cased letter of Latin-1 is no digit and no character that is
    not cased. *)
Lemma latin1_cased_not_decimal x :
  x < 256 → latin1_cased x = true → decimal_value x = None.
Proof.
  intros Hx Hc. unfold decimal_value.
  replace (x <? 256) with true by (symmetry; apply N.ltb_lt; lia).
  destruct (in_range 48 57 x) eqn:Hd; [|done].
  revert Hc Hd. unfold latin1_cased, latin1_alpha, ascii_letter, ascii_upper,
    ascii_lower, in_range.
  destruct (N.leb_spec 48 x), (N.leb_spec x 57); try discriminate. intros Hc _.
  repeat match type of Hc with
  | context [?a <=? x] => replace (a <=? x) with false in Hc by (symmetry; apply N.leb_gt; lia)
  | context [x =? ?a] => replace (x =? a) with false in Hc by (symmetry; apply N.eqb_neq; lia)
  end.
  discriminate.
Qed.

Lemma latin1_tolower_small x : x < 256 → latin1_tolower x < 256.
Proof.
  intros Hx. unfold latin1_tolower, ascii_upper, in_range.
  destruct (N.leb_spec 65 x), (N.leb_spec x 90), (N.leb_spec 192 x),
    (N.leb_spec x 214), (N.leb_spec 216 x), (N.leb_spec x 222); simpl; lia.
Qed.

(** What follows for a character that can be one case of a letter: it
    is no digit, and it is none of the characters without case that a
    pattern of Latin-1 literals asks for. *)
Lemma may_vary_not_decimal x : may_vary x = true → decimal_value x = None.
Proof.
  unfold may_vary. destruct (N.ltb_spec x 256) as [Hx|Hx].
  - by apply latin1_cased_not_decimal.
  - unfold is_decimal. destruct (decimal_value x) as [d|]; [|done].
    intros Hd. apply negb_true_iff, bool_decide_eq_false in Hd.
    destruct Hd. by eexists.
Qed.

Lemma may_vary_not_uncased c x :
  c < 256 → latin1_cased c = false → may_vary x = true → x ≠ c.
Proof.
  intros Hc Hcased Hx ->. revert Hx. unfold may_vary.
  replace (c <? 256) with true by (symmetry; apply N.ltb_lt; lia). congruence.
Qed.

(** Under [re.IGNORECASE] a cased literal of Latin-1 takes the
    characters that fold to its lower case. *)
Lemma lit_match_fold av ch :
  av < 256 → latin1_cased av = true →
  lit_match true av ch = bool_decide (sre_fold ch = latin1_tolower av).
Proof.
  intros Hav Hcased. unfold lit_match. rewrite Hcased. cbn [andb]. cbv zeta.
  assert (sre_tolower av = latin1_tolower av) as ->.
  { unfold sre_tolower.
    by replace (av <? 256) with true by (symmetry; apply N.ltb_lt; lia). }
  pose proof (latin1_tolower_small av Hav) as Hlo. revert Hlo.
  generalize (latin1_tolower av). intros lo Hlo.
  unfold sre_fold. cbv zeta. generalize (sre_tolower ch). intros l.
  apply bool_decide_ext. unfold extra_cases.
  destruct (N.eqb_spec lo 0x69) as [->|H1];
    [|destruct (N.eqb_spec lo 0x73) as [->|H2];
      [|destruct (N.eqb_spec lo 0xB5) as [->|H3]]];
    (destruct (N.eqb_spec l 0x131) as [->|H4];
     [|destruct (N.eqb_spec l 0x17F) as [->|H5];
       [|destruct (N.eqb_spec l 0x3BC) as [->|H6]]]);
    rewrite ?elem_of_cons, ?elem_of_nil; split; intros; try lia;
    intuition lia.
Qed.

(** Under [re.IGNORECASE] a literal takes both cases of a letter. *)
Lemma lit_match_variant av x y :
  av < 256 → same_letter x y → lit_match true av x = lit_match true av y.
Proof.
  intros Hav [->|(Hx & Hy & Hf)]; [done|].
  destruct (latin1_cased av) eqn:Hcased.
  - rewrite !lit_match_fold by done. apply bool_decide_ext.
    pose proof (latin1_tolower_small av Hav).
    destruct Hf as [->|[? ?]]; [done|]. split; intros; lia.
  - unfold lit_match. rewrite Hcased. cbn [andb].
    replace (x =? av) with false
      by (symmetry; apply N.eqb_neq; by apply may_vary_not_uncased).
    by replace (y =? av) with false
      by (symmetry; apply N.eqb_neq; by apply may_vary_not_uncased).
Qed.

Lemma decimal_value_variant x y :
  same_letter x y → decimal_value x = decimal_value y.
Proof.
  intros [->|(Hx & Hy & _)]; [done|].
  by rewrite !may_vary_not_decimal.
Qed.

Lemma is_decimal_variant x y : same_letter x y → is_decimal x = is_decimal y.
Proof. intros Hxy. unfold is_decimal. by rewrite (decimal_value_variant x y). Qed.

Lemma not_cased_variant c x y :
  c < 256 → latin1_cased c = false → same_letter x y → (x =? c) = (y =? c).
Proof.
  intros Hlt Hc [->|(Hx & Hy & _)]; [done|].
  replace (x =? c) with false
    by (symmetry; apply N.eqb_neq; by apply may_vary_not_uncased).
  by replace (y =? c) with false
    by (symmetry; apply N.eqb_neq; by apply may_vary_not_uncased).
Qed.

(** The letters with both cases in Latin-1, the ASCII letters among
    them, in either case. *)
Lemma same_letter_latin1 x y :
  x < 256 → y < 256 → latin1_cased x = true → latin1_cased y = true →
  latin1_tolower x = latin1_tolower y → same_letter x y.
Proof.
  intros Hx Hy Hcx Hcy Hl. right. unfold may_vary, sre_fold, sre_tolower.
  replace (x <? 256) with true by (symmetry; apply N.ltb_lt; lia).
  replace (y <? 256) with true by (symmetry; apply N.ltb_lt; lia).
  split_and!; [done..|]. left. by rewrite Hl.
Qed.

Lemma Forall2_one (st st' : mstate) :
  st_variant st st' → Forall2 st_variant [st] [st'].
Proof. intros Hst. constructor; [done|constructor]. Qed.

Lemma st_variant_length st st' :
  st_variant st st' → length st.1 = length st'.1.
Proof. intros [Ht _]. by eapply Forall2_length. Qed.

Lemma read_char_variant test st st' :
  (∀ x y, same_letter x y → test x = test y) →
  st_variant st st' →
  Forall2 st_variant (read_char test st) (read_char test st').
Proof.
  intros Htest [Ht Hg]. unfold read_char.
  destruct Ht as [|x y s s' Hxy Hs]; [constructor|].
  rewrite (Htest x y Hxy). destruct (test y); [|constructor].
  by apply Forall2_one.
Qed.

Lemma repeat_greedy_variant (step step' : mstate → list mstate) :
  (∀ st st', st_variant st st' → Forall2 st_variant (step st) (step' st')) →
  ∀ fuel st st', st_variant st st' →
    Forall2 st_variant (repeat_greedy step fuel st) (repeat_greedy step' fuel st').
Proof.
  intros Hstep. induction fuel as [|fuel IH]; intros st st' Hst; simpl.
  - by apply Forall2_one.
  - apply Forall2_app; [|by apply Forall2_one].
    apply Forall2_bind. eapply Forall2_impl; [by apply Hstep|].
    intros st1 st1' Hst1. simpl.
    rewrite (st_variant_length _ _ Hst), (st_variant_length _ _ Hst1).
    case_bool_decide; [by apply IH|constructor].
Qed.

(** The case-insensitive matcher goes the same way over two case
    variants of a text, whatever the pattern. *)
Lemma run_variant r :
  latin1_pattern r = true →
  ∀ st st', st_variant st st' → Forall2 st_variant (run true r st) (run true r st').
Proof.
  induction r as [|av| | | |r1 IH1 r2 IH2|r1 IH1 r2 IH2|r IH|r IH|r IH|i r IH];
    cbn [latin1_pattern]; intros Hr st st' Hst; cbn [run];
    try (apply andb_prop in Hr as [Hr1 Hr2]).
  - by apply Forall2_one.
  - apply read_char_variant; [|done]. intros x y. apply lit_match_variant.
    by apply N.ltb_lt.
  - apply read_char_variant; [|done]. intros x y Hxy.
    f_equal. by apply not_cased_variant.
  - apply read_char_variant; [|done]. apply is_decimal_variant.
  - assert ((st.1 = [] ∨ st.1 = [10]) ↔ (st'.1 = [] ∨ st'.1 = [10])) as Heol.
    { destruct Hst as [Ht _]. destruct Ht as [|x y s s' Hxy Hs]; [done|].
      destruct Hs as [|x2 y2 s s' _ _]; [|split; intros [[=]|[=]]].
      assert ((x =? 10) = (y =? 10)) as Hnl by (by apply not_cased_variant).
      destruct (N.eqb_spec x 10) as [->|Hx], (N.eqb_spec y 10) as [->|Hy];
        try discriminate Hnl; split; intros [[=]|[=]]; auto; congruence. }
    rewrite (bool_decide_ext _ _ Heol).
    case_bool_decide; [by apply Forall2_one|constructor].
  - apply Forall2_bind. eapply Forall2_impl; [by apply IH1|]. by apply IH2.
  - apply Forall2_app; auto.
  - apply Forall2_app; [auto|by apply Forall2_one].
  - rewrite (st_variant_length _ _ Hst). apply repeat_greedy_variant; auto.
  - apply Forall2_bind. eapply Forall2_impl; [by apply IH|].
    intros st1 st1' Hst1. cbv beta. rewrite (st_variant_length _ _ Hst1).
    apply repeat_greedy_variant; auto.
  - apply Forall2_fmap_2. eapply Forall2_impl; [by apply IH|].
    intros st1 st1' Hst1. split; simpl; [apply Hst1|].
    intros j. destruct (decide (i = j)) as [->|Hne].
    + rewrite !lookup_insert_eq. constructor.
      rewrite (st_variant_length _ _ Hst), (st_variant_length _ _ Hst1).
      apply Forall2_take, Hst.
    + rewrite !lookup_insert_ne by done. apply Hst1.
Qed.

Lemma re_match_variant r a b :
  latin1_pattern r = true → case_variant a b →
  option_Forall2 (λ g g' : gmap nat (list N),
                    ∀ i, option_Forall2 case_variant (g !! i) (g' !! i))
    (re_match true r a) (re_match true r b).
Proof.
  intros Hr Hab. unfold re_match.
  assert (st_variant (a, ∅) (b, ∅)) as Hst.
  { split; [done|]. intros i. simpl. rewrite !lookup_empty. constructor. }
  destruct (run_variant r Hr _ _ Hst) as [|st st' l l' Hh _]; simpl; constructor.
  apply Hh.
Qed.

Lemma int_digits_variant a b acc :
  case_variant a b → int_digits acc a = int_digits acc b.
Proof.
  intros Hab. revert acc. induction Hab as [|x y a b Hxy Hab IH]; intros acc; [done|].
  simpl. rewrite (decimal_value_variant x y Hxy).
  destruct (decimal_value y); [apply IH|done].
Qed.

Lemma int_variant (ma mb : option str) :
  option_Forall2 case_variant ma mb → int ma = int mb.
Proof.
  intros [a b Hab|]; [|done]. destruct Hab as [|x y a b Hxy Hab]; [done|].
  assert (case_variant (x :: a) (y :: b)) as Hab' by by constructor.
  unfold int. rewrite (Forall2_length _ _ _ Hab'), (int_digits_variant _ _ 0%Z Hab').
  done.
Qed.

Lemma rfind_variant c a b :
  c < 256 → latin1_cased c = false → case_variant a b → rfind c a = rfind c b.
Proof.
  intros Hlt Hc Hab. induction Hab as [|x y a b Hxy Hab IH]; [done|].
  simpl. by rewrite IH, (not_cased_variant c x y).
Qed.

Lemma basename_variant a b :
  case_variant a b → case_variant (basename a) (basename b).
Proof.
  intros Hab. unfold basename. rewrite (rfind_variant 47 a b) by done.
  by apply Forall2_drop.
Qed.

Lemma qualifies_variant a b : case_variant a b → qualifies a = qualifies b.
Proof.
  intros Hab%basename_variant. unfold qualifies.
  destruct (re_match_variant WORD_FILE_PATTERN _ _ eq_refl Hab) as [g g' Hg|]; [|done].
  by rewrite (int_variant _ _ (Hg 2%nat)).
Qed.
End CaseVariants.

(** C10, as the specification states it, fails for a change of case
    that puts two characters for one: with the capital I with dot above
    (U+0130), which the matcher lowers to i, the pattern matches
    englİsh.60, and it does not match the lower case of that name, where
    i and the combining dot above (U+0307) stand for the letter. *)
Lemma word_file_pattern_dotted_capital_I :
  lower_dotted (text "engl" ++ [0x130] ++ text "sh.60")
  = text "engli" ++ [0x307] ++ text "sh.60"
  ∧ is_Some (@re_match dotted_I_interpreter true WORD_FILE_PATTERN
               (text "engl" ++ [0x130] ++ text "sh.60"))
  ∧ @re_match dotted_I_interpreter true WORD_FILE_PATTERN
      (text "engli" ++ [0x307] ++ text "sh.60") = None
  ∧ @qualifies dotted_I_interpreter (text "engl" ++ [0x130] ++ text "sh.60") = true
  ∧ @qualifies dotted_I_interpreter (text "engli" ++ [0x307] ++ text "sh.60") = false
  ∧ ¬ (is_Some (@re_match dotted_I_interpreter true WORD_FILE_PATTERN
                  (text "engl" ++ [0x130] ++ text "sh.60"))
       ↔ is_Some (@re_match dotted_I_interpreter true WORD_FILE_PATTERN
                    (text "engli" ++ [0x307] ++ text "sh.60"))).
Proof.
  assert (is_Some (@re_match dotted_I_interpreter true WORD_FILE_PATTERN
                     (text "engl" ++ [0x130] ++ text "sh.60"))) as Hyes.
  { vm_compute. by eexists. }
  assert (@re_match dotted_I_interpreter true WORD_FILE_PATTERN
            (text "engli" ++ [0x307] ++ text "sh.60") = None) as Hno.
  { vm_compute. reflexivity. }
  split_and!; [vm_compute; reflexivity|done|done
              |vm_compute; reflexivity|vm_compute; reflexivity|].
  rewrite Hno. intros [Hs _]. by destruct (Hs Hyes).
Qed.

(** C10, amended.  The pattern is applied without regard to the case of
    letters, character by character: for two names of the same length
    that differ, position by position, at most in the case of a letter
    (two characters that the matcher folds to one, or two characters
    beyond Latin-1 whose folds are beyond Latin-1), the pattern matches
    the one exactly when it matches the other, and the one qualifies
    exactly when the other does.  The letters with both cases in Latin-1,
    the ASCII letters among them, are such characters in either case. *)
Theorem word_file_pattern_ignores_case `{Interpreter} (a b : str) :
  case_variant a b →
  (is_Some (re_match true WORD_FILE_PATTERN a)
   ↔ is_Some (re_match true WORD_FILE_PATTERN b))
  ∧ qualifies a = qualifies b
  ∧ (∀ m rest raw_words files_read,
       m_name m = a →
       extract_loop (m :: rest) raw_words files_read
       = extract_loop ({| m_name := b; m_data := m_data m |} :: rest)
           raw_words files_read)
  ∧ (∀ x y, x < 256 → y < 256 → latin1_cased x = true → latin1_cased y = true →
            latin1_tolower x = latin1_tolower y → same_letter x y).
Proof.
  intros Hab. split_and!.
  - destruct (re_match_variant WORD_FILE_PATTERN a b eq_refl Hab); [|done].
    split; eauto.
  - by apply qualifies_variant.
  - intros m rest raw_words files_read <-. cbn [extract_loop m_name m_data].
    pose proof (basename_variant _ _ Hab) as Hbase.
    destruct (re_match_variant WORD_FILE_PATTERN _ _ eq_refl Hbase) as [g g' Hg|]; [|done].
    by rewrite (int_variant _ _ (Hg 2%nat)).
  - apply same_letter_latin1.
Qed.

Lemma word_file_pattern_ignores_case_witness :
  @case_variant latin1_interpreter (text "ENGLISH-WORDS.60") (text "english-words.60")
  ∧ @qualifies latin1_interpreter (text "ENGLISH-WORDS.60") = true
  ∧ @qualifies latin1_interpreter (text "english-words.60") = true.
Proof.
  assert (@case_variant latin1_interpreter
            (text "ENGLISH-WORDS.60") (text "english-words.60")) as Hab.
  { apply (bool_decide_unpack _). vm_compute. exact I. }
  split; [done|].
  destruct (@word_file_pattern_ignores_case latin1_interpreter _ _ Hab) as (_ & -> & _).
  split; vm_compute; reflexivity.
Defined.

(** * Resolving the download URL *)

(** The replies the docstring of [get_download_url] and the [except]
    clause provide for: the function returns the fallback URL when
    [urlopen] raises [URLError] or [HTTPError], when the body is not
    JSON, and when the body is an object without a true
    ["tarball_url"]. *)
Lemma get_download_url_fallback `{Interpreter} :
  get_download_url (UrlopenRaises URLError) = Ok (JStr FALLBACK_URL)
  ∧ get_download_url (UrlopenRaises HTTPError) = Ok (JStr FALLBACK_URL)
  ∧ get_download_url NotJson = Ok (JStr FALLBACK_URL)
  ∧ get_download_url (Json (JDict [])) = Ok (JStr FALLBACK_URL).
Proof.
  destruct H as [alpha tolower decimal [over|]]; split_and!; reflexivity.
Qed.


(** C6.  The code at replies that the claim covers and the [except]
    clause does not: a body that is JSON but not an object (here the
    empty array) makes [data.get] raise [AttributeError], a body that is
    not UTF-8 makes [decode] raise [UnicodeDecodeError], a timeout while
    the body is read raises [TimeoutError]; each of them leaves
    [get_download_url] as an exception.  And the object returned for a
    true ["tarball_url"] need not be a [str]. *)
Theorem get_download_url_propagates `{Interpreter} :
  get_download_url (Json (JList [])) = Raise AttributeError
  ∧ get_download_url (Json JNone) = Raise AttributeError
  ∧ get_download_url NotUtf8 = Raise UnicodeDecodeError
  ∧ get_download_url (ReadRaises TimeoutError) = Raise TimeoutError
  ∧ get_download_url (Json (JDict [(text "tarball_url", JInt 5)])) = Ok (JInt 5).
Proof. destruct H as [alpha tolower decimal [over|]]; split_and!; reflexivity. Qed.

(** * The run as a whole *)

Section Run.
Context `{Interpreter}.

(** [save_outputs] touches no file but the two outputs. *)
Lemma save_outputs_only_outputs (w : world) words (fs fs' : files) r path :
  save_outputs w words fs = (r, fs') →
  path ≠ OUT_TXT → path ≠ OUT_JSON → fs' !! path = fs !! path.
Proof.
  unfold save_outputs, write_file. intros Hs Htxt Hjson.
  destruct (writable w OUT_TXT); [|by injection Hs as _ <-].
  destruct (writable w OUT_JSON); injection Hs as _ <-;
    rewrite ?lookup_insert_ne; done.
Qed.

(** [main] reaches [save_outputs] on one path only: after the raw lines
    were fetched and the filter kept at least one word.  On every other
    path the files are as they were. *)
Lemma main_cases (w : world) (fs : files) :
  (main w fs).2 = fs
  ∨ ∃ raw, fetch_raw w = Ok raw ∧ process_words raw ≠ []
           ∧ main w fs = save_outputs w (process_words raw) fs.
Proof.
  unfold main. destruct (fetch_raw w) as [raw|e]; [|by left].
  destruct (process_words raw) as [|word words] eqn:Hw; [by left|].
  right. exists raw. by rewrite Hw.
Qed.
End Run.

(** C4. When the filter returns the empty word list (as it does on no
    raw lines at all), the run ends with exit status 1 and every file is
    as it was before: neither five_letter_words.txt nor
    five_letter_words.json is created or overwritten.  [save_outputs] is
    reached only with a word list that is not empty. *)
Theorem main_empty_word_set `{Interpreter} (w : world) (fs : files) (raw : list str) :
  fetch_raw w = Ok raw → process_words raw = [] →
  main w fs = (Raise (SystemExit 1), fs)
  ∧ exit_status (main w fs).1 = 1%Z
  ∧ (main w fs).2 !! OUT_TXT = fs !! OUT_TXT
  ∧ (main w fs).2 !! OUT_JSON = fs !! OUT_JSON
  ∧ process_words [] = []
  ∧ (∀ (w' : world) (fs' : files),
       (main w' fs').2 = fs'
       ∨ ∃ raw', fetch_raw w' = Ok raw' ∧ process_words raw' ≠ []
                 ∧ main w' fs' = save_outputs w' (process_words raw') fs').
Proof.
  intros Hraw Hwords.
  assert (main w fs = (Raise (SystemExit 1), fs)) as Hmain.
  { unfold main. by rewrite Hraw, Hwords. }
  rewrite Hmain. split_and!; try done. apply main_cases.
Qed.

Lemma main_empty_word_set_witness :
  @fetch_raw latin1_interpreter barren_world = Ok [text "12345"]
  ∧ @process_words latin1_interpreter [text "12345"] = []
  ∧ @main latin1_interpreter barren_world ∅ = (Raise (SystemExit 1), ∅).
Proof.
  assert (@fetch_raw latin1_interpreter barren_world = Ok [text "12345"]) as Hraw
    by (vm_compute; reflexivity).
  assert (@process_words latin1_interpreter [text "12345"] = []) as Hwords
    by (vm_compute; reflexivity).
  split_and!; [done..|].
  apply (@main_empty_word_set latin1_interpreter barren_world ∅ _ Hraw Hwords).
Defined.

(** * The two output files *)

Section Outputs.
Implicit Types (w s rest line : str) (ws : list str) (c : N).

Lemma lower_plain c : 97 ≤ c ≤ 122 → plain c.
Proof. unfold plain. lia. Qed.

Lemma lower_not_linebreak c : 97 ≤ c ≤ 122 → is_linebreak c = false.
Proof.
  intros Hc. unfold is_linebreak, in_range.
  repeat match goal with
  | |- context [c <=? ?a] => replace (c <=? a) with false by (symmetry; apply N.leb_gt; lia)
  | |- context [c =? ?a] => replace (c =? a) with false by (symmetry; apply N.eqb_neq; lia)
  end.
  by rewrite !andb_false_r.
Qed.

(** ** The text file *)

Lemma splitlines_from_line w s line :
  Forall (λ c, is_linebreak c = false) w →
  splitlines_from (w ++ s) line = splitlines_from s (reverse w ++ line).
Proof.
  intros Hw. revert line. induction Hw as [|c w Hc Hw IH]; intros line; [done|].
  simpl. rewrite Hc, IH, reverse_cons, <- (assoc_L (++)). done.
Qed.

Lemma splitlines_from_newline s line :
  splitlines_from ([10] ++ s) line = reverse line :: splitlines_from s [].
Proof. simpl. by destruct s. Qed.

Lemma join_cons_cons sep w w' ws :
  join sep (w :: w' :: ws) = w ++ sep ++ join sep (w' :: ws).
Proof. done. Qed.

Lemma splitlines_join ws :
  ws ≠ [] → Forall (Forall (λ c, is_linebreak c = false)) ws →
  splitlines (join [10] ws ++ [10]) = ws.
Proof.
  intros Hne Hws. unfold splitlines.
  induction Hws as [|w ws Hw Hws IH]; [done|].
  destruct ws as [|w' ws].
  - cbn [join]. rewrite splitlines_from_line by done.
    rewrite (splitlines_from_newline []). simpl.
    by rewrite app_nil_r, reverse_involutive.
  - rewrite join_cons_cons, <- !(assoc_L (++)), splitlines_from_line by done.
    rewrite splitlines_from_newline, IH by done.
    by rewrite app_nil_r, reverse_involutive.
Qed.

(** ** The JSON file *)

Lemma escape_char_plain c : plain c → escape_char c = [c].
Proof.
  intros (Hc & H34 & H92). unfold escape_char, in_range.
  replace (c =? 34) with false by (symmetry; apply N.eqb_neq; lia).
  replace (c =? 92) with false by (symmetry; apply N.eqb_neq; lia).
  replace (32 <=? c) with true by (symmetry; apply N.leb_le; lia).
  by replace (c <=? 126) with true by (symmetry; apply N.leb_le; lia).
Qed.

Lemma encode_str_plain w : Forall plain w → encode_str w = [34] ++ w ++ [34].
Proof.
  intros Hw. unfold encode_str. do 2 f_equal.
  induction Hw as [|c w Hc Hw IH]; [done|].
  csimpl. by rewrite IH, escape_char_plain.
Qed.

Lemma scan_string_plain w rest acc :
  Forall plain w →
  scan_string (w ++ [34] ++ rest) acc = Some (reverse acc ++ w, rest).
Proof.
  intros Hw. revert acc. induction Hw as [|c w (Hc & H34 & H92) Hw IH]; intros acc.
  - simpl. by rewrite app_nil_r.
  - cbn [app scan_string].
    replace (c =? 34) with false by (symmetry; apply N.eqb_neq; lia).
    replace (c =? 92) with false by (symmetry; apply N.eqb_neq; lia).
    replace (c <? 32) with false by (symmetry; apply N.ltb_ge; lia).
    rewrite IH, reverse_cons, <- (assoc_L (++)). done.
Qed.

Lemma join_encode_str_head ws :
  ws ≠ [] → ∃ t, join item_sep (encode_str <$> ws) = 34 :: t.
Proof.
  destruct ws as [|w ws]; [done|]. intros _. rewrite fmap_cons.
  generalize (encode_str <$> ws). intros l. unfold encode_str.
  destruct l; simpl; eauto.
Qed.

Lemma scan_items_join ws rest acc fuel :
  ws ≠ [] → Forall (Forall plain) ws → (length ws ≤ fuel)%nat →
  scan_items fuel (join item_sep (encode_str <$> ws) ++ array_end ++ rest) acc
  = Some (reverse acc ++ ws, rest).
Proof.
  intros Hne Hws. revert acc fuel.
  induction Hws as [|w ws Hw Hws IH]; intros acc fuel Hfuel; [done|].
  destruct fuel as [|fuel]; [simpl in Hfuel; lia|].
  destruct ws as [|w' ws].
  - simpl join. rewrite encode_str_plain by done.
    cbn [app scan_items N.eqb Pos.eqb]. rewrite <- (assoc_L (++)).
    rewrite scan_string_plain by done. change (reverse [] ++ w) with w.
    cbn [app array_end skip_space json_space N.eqb Pos.eqb orb].
    by rewrite reverse_cons.
  - change (join item_sep (encode_str <$> w :: w' :: ws))
      with (encode_str w ++ item_sep ++ join item_sep (encode_str <$> w' :: ws)).
    rewrite encode_str_plain by done.
    cbn [app scan_items N.eqb Pos.eqb]. rewrite <- !(assoc_L (++)).
    rewrite scan_string_plain by done. change (reverse [] ++ w) with w.
    destruct (join_encode_str_head (w' :: ws)) as [t Ht]; [done|].
    rewrite Ht at 1. cbn [app item_sep skip_space json_space N.eqb Pos.eqb orb].
    change (34 :: t ++ array_end ++ rest) with ((34 :: t) ++ array_end ++ rest).
    rewrite <- Ht, IH; [|done|simpl in *; lia].
    by rewrite reverse_cons, <- (assoc_L (++)).
Qed.

Lemma loads_words_array s items :
  scan_items (length ([10; 32; 32] ++ 34 :: s)) (34 :: s) [] = Some (items, [10]) →
  loads_words ([91] ++ [10; 32; 32] ++ 34 :: s) = Some items.
Proof.
  intros Hs. unfold loads_words.
  cbn [app skip_space json_space N.eqb Pos.eqb orb]. cbn [app] in Hs.
  by rewrite Hs.
Qed.

Lemma length_join_encode_str ws :
  (length ws ≤ length (join item_sep (encode_str <$> ws)))%nat.
Proof.
  induction ws as [|w [|w' ws] IH]; [done|simpl; lia|].
  rewrite !fmap_cons, join_cons_cons, !length_app.
  rewrite fmap_cons in IH. simpl in *. lia.
Qed.

Lemma loads_dumps ws :
  ws ≠ [] → Forall (Forall plain) ws → loads_words (json_dumps ws ++ [10]) = Some ws.
Proof.
  intros Hne Hws. destruct (join_encode_str_head ws) as [t Ht]; [done|].
  assert (json_dumps ws ++ [10] = [91] ++ [10; 32; 32] ++ 34 :: (t ++ array_end ++ [10]))
    as ->.
  { unfold json_dumps. destruct ws as [|w ws]; [done|].
    change [44; 10; 32; 32] with item_sep. rewrite Ht.
    change (text "[") with [91]. change (text "]") with [93].
    rewrite <- !(assoc_L (++)). done. }
  apply loads_words_array.
  change (34 :: t ++ array_end ++ [10]) with ((34 :: t) ++ array_end ++ [10]).
  rewrite <- Ht. rewrite (scan_items_join ws [10] []); [done..|].
  pose proof (length_join_encode_str ws). rewrite !length_app. lia.
Qed.
End Outputs.

(** C8. For a word list of the final set that is not empty, the two files
    that [save_outputs] writes agree: the text file holds one word per
    line with a newline after the last, the JSON file holds the array of
    the same strings written with [indent=2] and a final newline, and
    reading the text file line by line gives the same list of words as
    parsing the JSON file. *)
Theorem save_outputs_agree (w : world) (words : list str) (fs fs' : files) :
  words ≠ [] → Forall five_lower words →
  save_outputs w words fs = (Ok (), fs') →
  ∃ txt js,
    fs' !! OUT_TXT = Some txt ∧ fs' !! OUT_JSON = Some js
    ∧ txt = join [10] words ++ [10]
    ∧ js = json_dumps words ++ [10]
    ∧ splitlines txt = words
    ∧ loads_words js = Some words.
Proof.
  intros Hne Hwords. unfold save_outputs, write_file.
  destruct (writable w OUT_TXT); [|done].
  destruct (writable w OUT_JSON); [|done].
  intros [= <-]. eexists _, _. split_and!; [| |done|done| |].
  - by rewrite lookup_insert_ne, lookup_insert_eq.
  - by rewrite lookup_insert_eq.
  - apply splitlines_join; [done|].
    eapply Forall_impl; [exact Hwords|]. intros word [_ Hw].
    eapply Forall_impl; [exact Hw|]. apply lower_not_linebreak.
  - apply loads_dumps; [done|].
    eapply Forall_impl; [exact Hwords|]. intros word [_ Hw].
    eapply Forall_impl; [exact Hw|]. apply lower_plain.
Qed.

Lemma save_outputs_agree_witness :
  ∃ fs' : files,
    save_outputs open_world [text "apple"; text "brick"; text "fjord"] ∅ = (Ok (), fs')
    ∧ (splitlines <$> fs' !! OUT_TXT) = Some [text "apple"; text "brick"; text "fjord"]
    ∧ (fs' !! OUT_JSON ≫= loads_words) = Some [text "apple"; text "brick"; text "fjord"].
Proof.
  eexists. split; [reflexivity|].
  assert (Forall five_lower [text "apple"; text "brick"; text "fjord"]) as Hwords.
  { repeat constructor; apply (bool_decide_unpack _); vm_compute; exact I. }
  destruct (save_outputs_agree open_world [text "apple"; text "brick"; text "fjord"] ∅ _
              ltac:(done) Hwords eq_refl)
    as (txt & js & -> & -> & _ & _ & Htxt & Hjs).
  split; [by rewrite <- Htxt|done].
Defined.

(** * More on the word filter *)

Section WordFilterMore.
Context `{Interpreter}.
Implicit Types (w word line : str) (raw rest : list str).

Lemma ascii_letter_bounds c :
  ascii_letter c = true ↔ 65 ≤ c ≤ 90 ∨ 97 ≤ c ≤ 122.
Proof.
  unfold ascii_letter, ascii_upper, ascii_lower, in_range.
  rewrite orb_true_iff, !andb_true_iff, !N.leb_le. done.
Qed.

Lemma ascii_letter_lt c : ascii_letter c = true → c < 128.
Proof. rewrite ascii_letter_bounds. lia. Qed.

(** The five tests of the loop, taken together, keep exactly the tokens
    of five ASCII letters. *)
Lemma accepted_tests word :
  accepted word ↔
  (bool_decide (word = []) || startswith word (text "#") = false
   ∧ isalpha word = true ∧ is_Some (encode_ascii word) ∧ length word = 5%nat).
Proof.
  unfold accepted. split.
  - intros [Hl Hw]. destruct word as [|c word]; [done|].
    assert (c ≠ 35) as Hc.
    { apply Forall_cons_1 in Hw as [Hc%ascii_letter_bounds _]. lia. }
    split_and!; [| | |done].
    + unfold startswith. simpl. change (text "#") with [35].
      apply bool_decide_eq_false_2. by intros [= ->].
    + unfold isalpha. apply forallb_forall. intros x Hx%list_elem_of_In.
      rewrite Forall_forall in Hw. specialize (Hw x Hx).
      rewrite is_alpha_ascii; [done|by apply ascii_letter_lt].
    + unfold encode_ascii. replace (forallb _ _) with true; [done|].
      symmetry. apply forallb_forall. intros x Hx%list_elem_of_In.
      rewrite Forall_forall in Hw. by apply N.ltb_lt, ascii_letter_lt, Hw.
  - intros (_ & Ha & [b He] & Hl). split; [done|].
    apply isalpha_all in Ha. apply encode_ascii_Some in He.
    rewrite Forall_forall in Ha, He. apply Forall_forall. intros c Hc.
    rewrite <- is_alpha_ascii; auto.
Qed.

Lemma process_loop_accepted line rest seen clean :
  accepted (strip line) →
  process_loop (line :: rest) seen clean =
  if bool_decide (lower (strip line) ∈ seen) then process_loop rest seen clean
  else process_loop rest ({[lower (strip line)]} ∪ seen) (clean ++ [lower (strip line)]).
Proof.
  intros (Hs & Ha & [b He] & Hl)%accepted_tests. cbn [process_loop].
  rewrite Hs, Ha, He. simpl. by rewrite bool_decide_eq_false_2 by lia.
Qed.

Lemma process_loop_rejected line rest seen clean :
  ¬ accepted (strip line) →
  process_loop (line :: rest) seen clean = process_loop rest seen clean.
Proof.
  intros Hna. cbn [process_loop].
  destruct (_ || _) eqn:Hs; [done|].
  destruct (isalpha (strip line)) eqn:Ha; [|done]. simpl.
  destruct (encode_ascii (strip line)) as [b|] eqn:He; [|done].
  destruct (bool_decide (length (strip line) ≠ 5%nat)) eqn:Hl; [done|].
  apply bool_decide_eq_false in Hl. destruct Hna.
  apply accepted_tests. split_and!; [done|done|by rewrite He|lia].
Qed.

Lemma process_loop_elem raw (seen : gset (list N)) (clean : list str) w :
  (∀ x, x ∈ seen ↔ x ∈ clean) →
  w ∈ process_loop raw seen clean ↔ w ∈ clean ∨ kept raw w.
Proof.
  unfold kept. revert seen clean. induction raw as [|line rest IH]; intros seen clean Hs.
  - simpl. split; [by left|]. intros [?|(line & []%elem_of_nil & _)]. done.
  - destruct (decide (accepted (strip line))) as [Hacc|Hacc].
    + rewrite process_loop_accepted by done. case_bool_decide as Hin.
      * rewrite IH by done. split.
        -- intros [?|(l & ? & ?)]; [by left|]. right. exists l. by rewrite elem_of_cons; eauto.
        -- intros [?|(l & [->|?]%elem_of_cons & Hl & ->)]; [by left| |].
           ++ left. by apply Hs.
           ++ right. eauto.
      * rewrite IH.
        -- rewrite elem_of_app, list_elem_of_singleton. split.
           ++ intros [[?| ->]|(l & ? & ?)]; [by left| |].
              ** right. exists line. rewrite elem_of_cons. eauto.
              ** right. exists l. rewrite elem_of_cons. eauto.
           ++ intros [?|(l & [->|?]%elem_of_cons & Hl & ->)]; eauto.
        -- intros x. rewrite elem_of_union, elem_of_singleton, elem_of_app,
             list_elem_of_singleton, Hs. tauto.
    + rewrite process_loop_rejected, IH by done. split.
      * intros [?|(l & ? & ?)]; [by left|]. right. exists l. rewrite elem_of_cons. eauto.
      * intros [?|(l & [->|?]%elem_of_cons & Hl & ?)]; [by left|done|]. right. eauto.
Qed.

Lemma process_words_elem raw w : w ∈ process_words raw ↔ kept raw w.
Proof.
  unfold process_words. rewrite sort_Permutation, process_loop_elem by set_solver.
  split; [|by right]. by intros [[]%elem_of_nil|?].
Qed.

(** Two lists of raw lines from which the filter takes the same words
    give the same result. *)
Lemma process_words_ext raw raw' :
  (∀ w, kept raw w ↔ kept raw' w) → process_words raw = process_words raw'.
Proof.
  intros Hk. apply (Sorted_unique str_le); [apply sort_Sorted..|].
  apply NoDup_Permutation; [apply process_words_NoDup..|].
  intros w. by rewrite !process_words_elem.
Qed.

Lemma lstrip_no_space s : Forall (λ c, is_space c = false) s → lstrip s = s.
Proof. intros [|c s' Hc _]; [done|]. simpl. by rewrite Hc. Qed.

Lemma strip_no_space s : Forall (λ c, is_space c = false) s → strip s = s.
Proof.
  intros Hs. unfold strip, rstrip. rewrite (lstrip_no_space s) by done.
  rewrite lstrip_no_space; [apply reverse_involutive|].
  by apply Forall_reverse.
Qed.

Lemma lower_not_space c : 97 ≤ c ≤ 122 → is_space c = false.
Proof.
  intros Hc. unfold is_space, in_range.
  repeat match goal with
  | |- context [c <=? ?a] => replace (c <=? a) with false by (symmetry; apply N.leb_gt; lia)
  | |- context [c =? ?a] => replace (c =? a) with false by (symmetry; apply N.eqb_neq; lia)
  | |- context [?a <=? c] =>
      lazymatch a with
      | 9 => fail | 28 => fail
      | _ => replace (a <=? c) with false by (symmetry; apply N.leb_gt; lia)
      end
  end.
  by rewrite !andb_false_r.
Qed.

(** A word of the final set is a token the filter keeps as it is. *)
Lemma five_lower_kept w :
  five_lower w → strip w = w ∧ accepted w ∧ lower w = w.
Proof.
  intros Hw. pose proof Hw as [Hl Hall]. split_and!.
  - apply strip_no_space. eapply Forall_impl; [done|]. apply lower_not_space.
  - split; [done|]. eapply Forall_impl; [done|]. intros c Hc. simpl in Hc.
    apply ascii_letter_bounds. lia.
  - by apply lower_five_lower.
Qed.

Lemma lstrip_app_space pre s :
  Forall (λ c, is_space c = true) pre → lstrip (pre ++ s) = lstrip s.
Proof. induction 1 as [|c pre Hc _ IH]; [done|]. simpl. by rewrite Hc. Qed.

Lemma lstrip_all_space s : Forall (λ c, is_space c = true) s → lstrip s = [].
Proof. induction 1 as [|c s Hc _ IH]; [done|]. simpl. by rewrite Hc. Qed.

Lemma lstrip_app s t :
  lstrip s ≠ [] → lstrip (s ++ t) = lstrip s ++ t.
Proof.
  induction s as [|c s IH]; [done|]. simpl. destruct (is_space c); [apply IH|done].
Qed.

Lemma lstrip_nil_all_space s : lstrip s = [] → Forall (λ c, is_space c = true) s.
Proof.
  induction s as [|c s IH]; [constructor|]. simpl.
  destruct (is_space c) eqn:Hc; [|done]. intros Hs. constructor; auto.
Qed.

Lemma rstrip_app_space s post :
  Forall (λ c, is_space c = true) post → rstrip (s ++ post) = rstrip s.
Proof.
  intros Hp. unfold rstrip. rewrite reverse_app, lstrip_app_space; [done|].
  by apply Forall_reverse.
Qed.

(** White space around a line does not count. *)
Lemma strip_padded pre line post :
  Forall (λ c, is_space c = true) pre → Forall (λ c, is_space c = true) post →
  strip (pre ++ line ++ post) = strip line.
Proof.
  intros Hpre Hpost. unfold strip. rewrite lstrip_app_space by done.
  destruct (lstrip line) as [|c s] eqn:Hl.
  - rewrite lstrip_all_space; [done|].
    apply Forall_app. split; [by apply lstrip_nil_all_space|done].
  - rewrite lstrip_app by congruence. rewrite Hl. by apply rstrip_app_space.
Qed.
Lemma process_words_again raw :
  process_words (process_words raw) = process_words raw.
Proof.
  apply (Sorted_unique str_le); [apply sort_Sorted..|].
  apply NoDup_Permutation; [apply process_words_NoDup..|].
  intros w. rewrite process_words_elem. unfold kept. split.
  - intros (line & Hline & _ & ->).
    pose proof (process_words_five_lower raw) as Hf. rewrite Forall_forall in Hf.
    destruct (five_lower_kept line (Hf line Hline)) as (-> & _ & ->). done.
  - intros Hw. pose proof (process_words_five_lower raw) as Hf.
    rewrite Forall_forall in Hf.
    destruct (five_lower_kept w (Hf w Hw)) as (Hs & Ha & Hl).
    exists w. by rewrite Hs, Hl.
Qed.
End WordFilterMore.

(** X1. [process_words] returns exactly the lower-case forms of the
    tokens of five ASCII letters: a word is in the result if and only if
    some raw line, stripped of the white space around it, is five
    letters of A-Z or a-z and the word is that token in lower case. *)
Theorem process_words_exactly_five_letters `{Interpreter} (raw : list str) (w : str) :
  w ∈ process_words raw ↔
  ∃ line, line ∈ raw
          ∧ length (strip line) = 5%nat
          ∧ Forall (λ c, ascii_letter c = true) (strip line)
          ∧ w = lower (strip line).
Proof.
  rewrite process_words_elem. unfold kept, accepted. split.
  - intros (line & ? & [? ?] & ?). by exists line.
  - intros (line & ? & ? & ? & ?). by exists line.
Qed.

(** X2. Filtering is idempotent: the filter applied to its own result
    gives that result back. *)
Theorem process_words_idempotent `{Interpreter} (raw : list str) :
  process_words (process_words raw) = process_words raw.
Proof. apply process_words_again. Qed.

(** X3. The result does not depend on the order of the raw lines nor on
    how often a line occurs: two lists with the same lines give the same
    result. *)
Theorem process_words_same_lines `{Interpreter} (raw raw' : list str) :
  (∀ line, line ∈ raw ↔ line ∈ raw') → process_words raw = process_words raw'.
Proof.
  intros Hl. apply process_words_ext. intros w. unfold kept.
  split; intros (line & Hin & ?); exists line; (split; [by apply Hl|done]).
Qed.

Lemma process_words_same_lines_witness :
  @process_words latin1_interpreter [text "brick"; text "apple"; text "brick"]
  = @process_words latin1_interpreter [text "apple"; text "brick"].
Proof.
  apply (@process_words_same_lines latin1_interpreter). intros line.
  rewrite !elem_of_cons. tauto.
Defined.

(** X4. Filtering two lists of raw lines one after the other is the same
    as filtering each and then filtering the two results together. *)
Theorem process_words_app `{Interpreter} (raw1 raw2 : list str) :
  process_words (raw1 ++ raw2)
  = process_words (process_words raw1 ++ process_words raw2).
Proof.
  apply process_words_ext. intros w.
  assert (∀ raw, kept (process_words raw) w ↔ kept raw w) as Hpw.
  { intros raw. rewrite <- !process_words_elem.
    by rewrite process_words_again. }
  assert (∀ l1 l2, kept (l1 ++ l2) w ↔ kept l1 w ∨ kept l2 w) as Happ.
  { intros l1 l2. unfold kept. split.
    - intros (line & [?|?]%elem_of_app & ?); [left|right]; by exists line.
    - intros [(line & ? & ?)|(line & ? & ?)]; exists line;
        (split; [apply elem_of_app; auto|done]). }
  by rewrite !Happ, !Hpw.
Qed.

(** X5. White space around a raw line makes no difference: padding every
    line with white space on both sides gives the same result. *)
Theorem process_words_padding `{Interpreter} (pre post : str) (raw : list str) :
  Forall (λ c, is_space c = true) pre → Forall (λ c, is_space c = true) post →
  process_words ((λ line, pre ++ line ++ post) <$> raw) = process_words raw.
Proof.
  intros Hpre Hpost. apply process_words_ext. intros w. unfold kept. split.
  - intros (line & (l & -> & Hl)%list_elem_of_fmap & Hacc & ->).
    rewrite strip_padded in * by done. eauto.
  - intros (line & Hl & Hacc & ->). exists (pre ++ line ++ post).
    rewrite strip_padded by done. split; [|done].
    apply list_elem_of_fmap. eauto.
Qed.

Lemma process_words_padding_witness :
  @process_words latin1_interpreter
    ((λ line, [32; 9] ++ line ++ [13]) <$> [text "Apple"; text "fjord"])
  = [text "apple"; text "fjord"].
Proof.
  rewrite (@process_words_padding latin1_interpreter [32; 9] [13]).
  - vm_compute. reflexivity.
  - by repeat constructor.
  - by repeat constructor.
Defined.

(** * More on the scan of the archive *)

Section ExtractMore.
Context `{Interpreter}.
Implicit Types (m : member) (ms : list member) (s line : str).

Lemma basename_length p : (length (basename p) ≤ length p)%nat.
Proof. unfold basename. rewrite length_drop. lia. Qed.

(** On a name of at most 640 characters [int] reads the level whatever
    the limit on digits is. *)
Lemma short_name_level name groups :
  (length name ≤ 640)%nat →
  re_match true WORD_FILE_PATTERN (basename name) = Some groups →
  ∃ level, int (groups !! 2%nat) = Ok level.
Proof.
  intros Hlen (stem & d & tl & Hs & _ & _ & Hne & Hd & ->)%word_file_pattern_sound.
  assert (length d ≤ 640)%nat as Hd640.
  { pose proof (basename_length name) as Hb. rewrite Hs, !length_app in Hb. lia. }
  destruct d as [|c d]; [done|]. unfold int.
  destruct int_max_str_digits_over as [over|]; [|by apply int_digits_decimal].
  rewrite bool_decide_eq_false_2 by lia. by apply int_digits_decimal.
Qed.

Lemma extract_loop_cons_short m rest raw_words files_read :
  (length (m_name m) ≤ 640)%nat →
  extract_loop (m :: rest) raw_words files_read =
  if qualifies (m_name m) then
    match m_data m with
    | ExtractRaises e => Raise e
    | Data t => extract_loop rest (raw_words ++ splitlines t) (S files_read)
    | _ => extract_loop rest raw_words files_read
    end
  else extract_loop rest raw_words files_read.
Proof.
  intros Hlen. destruct (qualifies (m_name m)) eqn:Hq.
  - by apply extract_loop_qualifies.
  - revert Hq. cbn [extract_loop]. unfold qualifies.
    destruct (re_match _ _ _) as [groups|] eqn:Hm; [|done].
    destruct (short_name_level _ _ Hlen Hm) as [level ->]. cbn. by intros ->.
Qed.

Lemma extract_loop_app ms1 ms2 raw_words files_read :
  extract_loop (ms1 ++ ms2) raw_words files_read =
  extract_loop ms1 raw_words files_read ≫= λ r, extract_loop ms2 r.1 r.2.
Proof.
  revert raw_words files_read. induction ms1 as [|m ms1 IH]; intros rw n; [done|].
  rewrite <- app_comm_cons. cbn [extract_loop].
  destruct (re_match _ _ _) as [groups|]; [|apply IH].
  destruct (int _) as [level|]; [|done]. cbn.
  destruct (in_levels level); cbn; [|apply IH].
  destruct (m_data m); [done|apply IH..].
Qed.

Lemma member_data_lines m t :
  qualifies (m_name m) = true → m_data m = Data t →
  member_lines m = splitlines t ∧ member_read m = true.
Proof. intros Hq Hd. unfold member_lines, member_read. by rewrite Hq, Hd. Qed.

Lemma member_no_lines m :
  qualifies (m_name m) = false ∨ (∀ t, m_data m ≠ Data t) →
  member_lines m = [] ∧ member_read m = false.
Proof.
  unfold member_lines, member_read. intros [-> |Hd]; [done|].
  destruct (qualifies _); [|done]. destruct (m_data m) as [| | |t]; try done.
  by destruct (Hd t).
Qed.

Lemma gathered_cons m ms (l : list str) (b : bool) (n : nat) :
  member_lines m = l → member_read m = b →
  (m :: ms) ≫= member_lines = l ++ (ms ≫= member_lines)
  ∧ (n + length (filter (λ m, member_read m = true) (m :: ms)))%nat
    = ((if b then S n else n) + length (filter (λ m, member_read m = true) ms))%nat.
Proof.
  intros <- <-. rewrite bind_cons, filter_cons. split; [done|].
  destruct (member_read m); [rewrite decide_True by done|rewrite decide_False by done];
    simpl; lia.
Qed.

(** What the loop returns when it returns. *)
Lemma extract_loop_Ok ms raw_words files_read raw_words' files_read' :
  extract_loop ms raw_words files_read = Ok (raw_words', files_read') →
  raw_words' = raw_words ++ (ms ≫= member_lines)
  ∧ files_read' = (files_read + length (filter (λ m, member_read m = true) ms))%nat.
Proof.
  revert raw_words files_read. induction ms as [|m ms IH]; intros rw n.
  - simpl. intros [= <- <-]. by rewrite app_nil_r, Nat.add_0_r.
  - destruct (qualifies (m_name m)) eqn:Hq.
    + rewrite extract_loop_qualifies by done.
      destruct (m_data m) as [e| | |t] eqn:Hdata; [done|..].
      * destruct (member_no_lines m) as [Hl Hr]; [right; congruence|].
        destruct (gathered_cons m ms _ _ n Hl Hr) as [-> ->]. apply IH.
      * destruct (member_no_lines m) as [Hl Hr]; [right; congruence|].
        destruct (gathered_cons m ms _ _ n Hl Hr) as [-> ->]. apply IH.
      * destruct (member_data_lines m t Hq Hdata) as [Hl Hr].
        destruct (gathered_cons m ms _ _ n Hl Hr) as [-> ->].
        intros [-> ->]%IH. by rewrite <- (assoc_L (++)).
    + destruct (member_no_lines m) as [Hl Hr]; [by left|].
      destruct (gathered_cons m ms _ _ n Hl Hr) as [-> ->].
      destruct (extract_loop_not_qualifies m ms rw n Hq) as [-> | ->]; [apply IH|done].
Qed.

(** Over members on which nothing raises, the loop gathers the lines of
    the members it reads, in the order of the archive, and counts
    them. *)
Lemma extract_loop_safe ms raw_words files_read :
  Forall member_safe ms →
  extract_loop ms raw_words files_read
  = Ok (raw_words ++ (ms ≫= member_lines),
        (files_read + length (filter (λ m, member_read m = true) ms))%nat).
Proof.
  intros Hms. revert raw_words files_read.
  induction Hms as [|m ms [Hlen Hex] Hms IH]; intros rw n.
  - simpl. by rewrite app_nil_r, Nat.add_0_r.
  - rewrite extract_loop_cons_short by done.
    destruct (qualifies (m_name m)) eqn:Hq.
    + destruct (m_data m) as [e| | |t] eqn:Hdata.
      * by destruct (Hex eq_refl e).
      * destruct (member_no_lines m) as [Hl Hr]; [right; congruence|].
        destruct (gathered_cons m ms _ _ n Hl Hr) as [-> ->]. apply IH.
      * destruct (member_no_lines m) as [Hl Hr]; [right; congruence|].
        destruct (gathered_cons m ms _ _ n Hl Hr) as [-> ->]. apply IH.
      * destruct (member_data_lines m t Hq Hdata) as [Hl Hr].
        destruct (gathered_cons m ms _ _ n Hl Hr) as [-> ->].
        by rewrite IH, <- (assoc_L (++)).
    + destruct (member_no_lines m) as [Hl Hr]; [by left|].
      destruct (gathered_cons m ms _ _ n Hl Hr) as [-> ->]. apply IH.
Qed.

(** ** The lines of a text *)

Lemma splitlines_from_spec n s line :
  (length s ≤ n)%nat →
  Forall (λ c, is_linebreak c = false) line →
  Forall (Forall (λ c, is_linebreak c = false)) (splitlines_from s line)
  ∧ mjoin (splitlines_from s line)
    = reverse line ++ filter (λ c, is_linebreak c = false) s.
Proof.
  revert s line. induction n as [|n IH]; intros s line Hn Hline.
  - destruct s; [|simpl in Hn; lia]. simpl. destruct line as [|c line].
    + by split.
    + split; [|by csimpl; rewrite !app_nil_r].
      constructor; [|constructor]. by apply Forall_reverse.
  - destruct s as [|c s].
    + simpl. destruct line as [|c line].
      * by split.
      * split; [|by csimpl; rewrite !app_nil_r].
        constructor; [|constructor]. by apply Forall_reverse.
    + simpl in Hn. cbn [splitlines_from]. rewrite filter_cons.
      destruct (is_linebreak c) eqn:Hc.
      * rewrite decide_False by congruence.
        assert (∀ s', (length s' ≤ n)%nat →
                  filter (λ c, is_linebreak c = false) s'
                  = filter (λ c, is_linebreak c = false) s →
                  Forall (Forall (λ c, is_linebreak c = false))
                    (reverse line :: splitlines_from s' [])
                  ∧ mjoin (reverse line :: splitlines_from s' [])
                    = reverse line ++ filter (λ c, is_linebreak c = false) s) as Hnext.
        { intros s' Hs' Hf. destruct (IH s' [] Hs') as [Hall Hj]; [constructor|].
          split; [constructor; [by apply Forall_reverse|done]|].
          csimpl. by rewrite Hj, Hf. }
        destruct s as [|d s]; [apply Hnext; [simpl; lia|done]|].
        destruct ((c =? 13) && (d =? 10)) eqn:Hcrlf.
        -- apply Hnext; [simpl in *; lia|].
           apply andb_prop in Hcrlf as [_ ->%N.eqb_eq].
           by rewrite filter_cons, decide_False.
        -- apply Hnext; [simpl in *; lia|done].
      * rewrite decide_True by done.
        destruct (IH s (c :: line)) as [Hall Hj]; [lia|by constructor|].
        split; [done|]. by rewrite Hj, reverse_cons, <- (assoc_L (++)).
Qed.

Lemma splitlines_spec s :
  Forall (Forall (λ c, is_linebreak c = false)) (splitlines s)
  ∧ mjoin (splitlines s) = filter (λ c, is_linebreak c = false) s.
Proof. by apply (splitlines_from_spec (length s)). Qed.

Lemma member_lines_spec m :
  Forall (Forall (λ c, is_linebreak c = false)) (member_lines m)
  ∧ mjoin (member_lines m) = member_text m.
Proof.
  unfold member_lines, member_text. destruct (qualifies _); [|by split].
  destruct (m_data m); try (by split). apply splitlines_spec.
Qed.
End ExtractMore.

(** X6. When no member makes the loop raise (names of at most 640
    characters, no exception from [tar.extractfile] on a qualifying
    member), [extract_words] returns the lines of the qualifying members
    that are files and can be read, member after member in the order of
    the archive, and counts those members as files read. *)
Theorem extract_words_gathers `{Interpreter} (ms : list member) :
  Forall member_safe ms →
  extract_words (Members ms) = Ok (ms ≫= member_lines)
  ∧ extract_loop ms [] 0%nat
    = Ok (ms ≫= member_lines, length (filter (λ m, member_read m = true) ms)).
Proof.
  intros Hms. unfold extract_words. by rewrite extract_loop_safe.
Qed.

Lemma extract_words_gathers_witness :
  Forall (@member_safe latin1_interpreter) sample_archive
  ∧ @extract_words latin1_interpreter (Members sample_archive)
    = Ok [text "apple"; text "it's"].
Proof.
  assert (Forall (@member_safe latin1_interpreter) sample_archive) as Hms.
  { repeat constructor; try (simpl; lia); by intros _ e. }
  split; [done|].
  destruct (@extract_words_gathers latin1_interpreter sample_archive Hms) as [-> _].
  vm_compute. reflexivity.
Defined.

(** X7. A member whose name has at most 640 characters (so that [int]
    reads its level under any limit on digits) and that does not
    qualify, is not a file, or has a content that cannot be read or
    decoded, is passed over: the result is the one of the archive without
    that member. *)
Theorem extract_words_skips `{Interpreter} (ms1 ms2 : list member) (m : member) :
  (length (m_name m) ≤ 640)%nat →
  qualifies (m_name m) = false ∨ m_data m = NotAFile ∨ m_data m = Unreadable →
  extract_words (Members (ms1 ++ m :: ms2)) = extract_words (Members (ms1 ++ ms2)).
Proof.
  intros Hlen Hm. unfold extract_words. rewrite !extract_loop_app.
  destruct (extract_loop ms1 [] 0%nat) as [[rw n]|e]; [|done].
  cbv beta iota delta [mbind result_bind fst snd].
  rewrite extract_loop_cons_short by done.
  destruct (qualifies (m_name m)); [|done].
  by destruct Hm as [?|[-> | ->]].
Qed.

Lemma extract_words_skips_witness :
  @extract_words latin1_interpreter
    (Members (sample_archive ++
              {| m_name := text "english-words.20"; m_data := Unreadable |} :: []))
  = Ok [text "apple"; text "it's"].
Proof.
  rewrite (@extract_words_skips latin1_interpreter sample_archive []).
  - vm_compute. reflexivity.
  - simpl. lia.
  - right. by right.
Defined.

(** X8. An exception of [tar.extractfile] on a qualifying member ends
    the scan, as does one of opening the archive: a [TarError] becomes
    [SystemExit(1)], any other exception leaves [extract_words] as it
    is.  Nothing is returned of the lines read before. *)
Theorem extract_words_aborts `{Interpreter} (ms1 ms2 : list member) (m : member) (e : exn) :
  Forall member_safe ms1 → qualifies (m_name m) = true → m_data m = ExtractRaises e →
  extract_words (Members (ms1 ++ m :: ms2))
  = Raise (if isinstance e TarError then SystemExit 1 else e)
  ∧ extract_words (OpenRaises e)
    = Raise (if isinstance e TarError then SystemExit 1 else e).
Proof.
  intros Hms Hq Hdata. unfold extract_words, catches. simpl existsb.
  rewrite orb_false_r. split; [|by destruct (isinstance e TarError)].
  rewrite extract_loop_app, extract_loop_safe by done.
  cbv beta iota delta [mbind result_bind fst snd].
  rewrite extract_loop_qualifies, Hdata by done.
  cbv beta iota delta [fmap result_fmap].
  by destruct (isinstance e TarError).
Qed.

Lemma extract_words_aborts_witness :
  @extract_words latin1_interpreter
    (Members (sample_archive ++
              {| m_name := text "english-words.20"; m_data := ExtractRaises ReadError |}
              :: []))
  = Raise (SystemExit 1).
Proof.
  destruct (@extract_words_aborts latin1_interpreter sample_archive []
              {| m_name := text "english-words.20"; m_data := ExtractRaises ReadError |}
              ReadError) as [-> _]; [| |reflexivity..].
  - repeat constructor; try (simpl; lia); by intros _ e.
  - vm_compute. reflexivity.
Defined.

(** X9. No raw line that [extract_words] returns holds a line boundary,
    and the raw lines, put together, are the texts of the members read,
    without their line boundaries and in the order of the archive:
    nothing else of a text is lost. *)
Theorem extract_words_lines `{Interpreter} (ms : list member) (raw : list str) :
  extract_words (Members ms) = Ok raw →
  Forall (Forall (λ c, is_linebreak c = false)) raw
  ∧ mjoin raw = ms ≫= member_text.
Proof.
  unfold extract_words.
  destruct (extract_loop ms [] 0%nat) as [[rw n]|e] eqn:Hloop;
    cbv beta iota delta [fmap result_fmap fst];
    [|by destruct (catches [TarError] e)].
  intros [= <-]. apply extract_loop_Ok in Hloop as [-> _]. simpl. clear.
  induction ms as [|m ms [IH1 IH2]]; [by split|]. csimpl.
  destruct (member_lines_spec m) as [Hm1 Hm2]. split.
  - by apply Forall_app.
  - by rewrite join_app, Hm2, IH2.
Qed.

Lemma extract_words_lines_witness :
  mjoin [text "apple"; text "it's"]
  = sample_archive ≫= @member_text latin1_interpreter.
Proof.
  apply (@extract_words_lines latin1_interpreter sample_archive).
  vm_compute. reflexivity.
Defined.

(** * More on the names that qualify *)

Section QualificationMore.
Context `{Interpreter}.
Implicit Types (name stem d tl s : str).

Lemma run_end_unique (P : N → Prop) a (x x' y y' : str) :
  Forall P x → Forall P x' → ¬ P a →
  x ++ a :: y = x' ++ a :: y' → x = x' ∧ y = y'.
Proof.
  intros Hx. revert x'. induction Hx as [|c x Hc Hx IH]; intros x' Hx' Ha.
  - destruct Hx' as [|c' x' Hc' _]; simpl; [by intros [= ->]|].
    intros [= -> _]. done.
  - destruct Hx' as [|c' x' Hc' Hx']; simpl.
    + intros [= -> _]. done.
    + intros [= -> Heq]. destruct (IH x' Hx' Ha Heq) as [-> ->]. done.
Qed.

(** A name is a stem, a dot, a run of digits and at most one final
    newline in one way only. *)
Lemma level_digits_unique stem stem' d d' tl tl' :
  stem ++ [46] ++ d ++ tl = stem' ++ [46] ++ d' ++ tl' →
  (tl = [] ∨ tl = [10]) → (tl' = [] ∨ tl' = [10]) → d ≠ [] → d' ≠ [] →
  Forall (λ c, is_decimal c = true) d → Forall (λ c, is_decimal c = true) d' →
  d = d'.
Proof.
  intros Heq Htl Htl' Hne Hne' Hd Hd'.
  apply (f_equal reverse) in Heq. rewrite !reverse_app in Heq.
  change (reverse [46]) with [46] in Heq. rewrite <- !(assoc_L (++)) in Heq.
  assert (is_decimal 10 = false) as H10 by done.
  assert (is_decimal 46 = false) as H46 by done.
  apply Forall_reverse in Hd, Hd'.
  assert (reverse d ≠ []) as Hr by (by intros ?%(f_equal length); rewrite length_reverse in *; destruct d).
  assert (reverse d' ≠ []) as Hr' by (by intros ?%(f_equal length); rewrite length_reverse in *; destruct d').
  assert (¬ (λ c, is_decimal c = true) 46) as Hdot by (simpl; congruence).
  assert (reverse d = reverse d') as Hrd.
  { destruct Htl as [-> | ->], Htl' as [-> | ->]; simpl in Heq.
    - by destruct (run_end_unique _ 46 _ _ _ _ Hd Hd' Hdot Heq).
    - destruct Hd as [|c rd Hc _]; [done|]. simpl in Heq. injection Heq as -> _. congruence.
    - destruct Hd' as [|c rd Hc _]; [done|]. simpl in Heq. injection Heq as <- _. congruence.
    - injection Heq as Heq.
      by destruct (run_end_unique _ 46 _ _ _ _ Hd Hd' Hdot Heq). }
  apply (f_equal reverse) in Hrd. by rewrite !reverse_involutive in Hrd.
Qed.

(** Whether a name of that form qualifies is decided by the level its
    digits spell. *)
Lemma qualifies_decomposed name stem d tl level :
  basename name = stem ++ [46] ++ d ++ tl → stem_ok stem →
  (tl = [] ∨ tl = [10]) → d ≠ [] → Forall (λ c, is_decimal c = true) d →
  int (Some d) = Ok level →
  qualifies name = in_levels level.
Proof.
  intros Hb Hstem Htl Hne Hd Hint. unfold qualifies.
  destruct (proj2 (word_file_pattern_matches (basename name))) as [groups Hm].
  { by exists stem, d, tl. }
  rewrite Hm.
  apply word_file_pattern_sound in Hm
    as (stem' & d' & tl' & Hb' & _ & Htl' & Hne' & Hd' & ->).
  rewrite Hb in Hb'.
  rewrite <- (level_digits_unique _ _ _ _ _ _ Hb' Htl Htl' Hne Hne' Hd Hd').
  by rewrite Hint.
Qed.

Lemma spells_itself (w : string) :
  Forall (λ c, c < 256) (text w) → spells w (text w).
Proof.
  unfold spells. induction 1 as [|c l Hc _ IH]; constructor; [|done].
  unfold lit_match. simpl. destruct (latin1_cased c); [|apply N.eqb_refl].
  apply bool_decide_eq_true. apply list_elem_of_here.
Qed.

Lemma decimal_not_slash d : Forall (λ c, is_decimal c = true) d → 47 ∉ d.
Proof.
  intros Hd Hin. rewrite Forall_forall in Hd. by specialize (Hd 47 Hin).
Qed.
End QualificationMore.

(** X10. A member qualifies exactly when its base name is a stem (one of
    english, american, british, canadian, australian, variant, or any
    text without a newline that ends in -word or -words, all without
    regard to case), a dot, and a run of decimal digits that [int] reads
    as a level within the bounds, with nothing after the digits but for
    one final newline. *)
Theorem qualifies_exactly `{Interpreter} (name : str) :
  qualifies name = true ↔
  ∃ stem digits tail level,
    basename name = stem ++ [46] ++ digits ++ tail ∧ stem_ok stem
    ∧ (tail = [] ∨ tail = [10]) ∧ digits ≠ []
    ∧ Forall (λ c, is_decimal c = true) digits
    ∧ int (Some digits) = Ok level
    ∧ (MIN_LEVEL ≤ level ≤ MAX_LEVEL)%Z.
Proof.
  split; [apply qualifies_sound|].
  intros (stem & d & tl & level & Hb & Hstem & Htl & Hne & Hd & Hint & Hin).
  rewrite (qualifies_decomposed name stem d tl level) by done.
  by apply in_levels_bounds.
Qed.

(** X11. The last alternative of the pattern takes any file whose name
    ends in -words or -word before the level, whatever stands in front
    (if it has no newline): such a member, at any depth of the archive,
    qualifies exactly when its level is within the bounds. *)
Theorem qualifies_any_words_file `{Interpreter}
    (dirs x digits : str) (level : Z) (plural : bool) :
  10 ∉ x → 47 ∉ x → digits ≠ [] → Forall (λ c, is_decimal c = true) digits →
  int (Some digits) = Ok level →
  qualifies (dirs ++ [47] ++ (x ++ text (if plural then "-words" else "-word"))
                  ++ [46] ++ digits)
  = in_levels level.
Proof.
  intros Hx10 Hx47 Hne Hd Hint.
  set (sfx := text (if plural then "-words" else "-word")).
  apply (qualifies_decomposed _ (x ++ sfx) digits [] level); [|..|done];
    [|right|by left|done|done].
  - rewrite app_nil_r. apply basename_path.
    rewrite !not_elem_of_app. split_and!; [done| | |by apply decimal_not_slash].
    + unfold sfx. destruct plural; apply (bool_decide_unpack _); by vm_compute.
    + apply (bool_decide_unpack _). by vm_compute.
  - exists x, sfx. split_and!; [done..|]. unfold sfx. destruct plural.
    + right. apply spells_itself. apply (bool_decide_unpack _). by vm_compute.
    + left. apply spells_itself. apply (bool_decide_unpack _). by vm_compute.
Qed.

Lemma qualifies_any_words_file_witness :
  @qualifies latin1_interpreter
    (text "scowl/misc" ++ [47] ++ (text "not a dictionary" ++ text "-words")
     ++ [46] ++ text "35")
  = true.
Proof.
  rewrite (@qualifies_any_words_file latin1_interpreter _ _ _ 35 true).
  - reflexivity.
  - apply (bool_decide_unpack _). by vm_compute.
  - apply (bool_decide_unpack _). by vm_compute.
  - done.
  - by repeat constructor.
  - reflexivity.
Defined.

(** * More on the two output files *)

Section OutputsMore.
Implicit Types (w s rest acc : str) (ws : list str) (c : N).

Lemma hex_digit_lt n : n < 16 → 48 ≤ hex_digit n ≤ 102.
Proof. unfold hex_digit. destruct (N.ltb_spec n 10); lia. Qed.

Lemma hex_value_digit n : n < 16 → hex_value (hex_digit n) = Some n.
Proof.
  intros Hn. unfold hex_value, hex_digit, in_range.
  destruct (N.ltb_spec n 10).
  - replace (48 <=? 48 + n) with true by (symmetry; apply N.leb_le; lia).
    replace (48 + n <=? 57) with true by (symmetry; apply N.leb_le; lia).
    simpl. f_equal. lia.
  - replace (87 + n <=? 57) with false by (symmetry; apply N.leb_gt; lia).
    replace (97 <=? 87 + n) with true by (symmetry; apply N.leb_le; lia).
    replace (87 + n <=? 102) with true by (symmetry; apply N.leb_le; lia).
    rewrite andb_false_r. simpl. f_equal. lia.
Qed.

Lemma hex4_digits u :
  u < 65536 →
  hex4 (hex_digit (u / 4096 mod 16)) (hex_digit (u / 256 mod 16))
       (hex_digit (u / 16 mod 16)) (hex_digit (u mod 16)) = Some u.
Proof.
  intros Hu. unfold hex4.
  rewrite !hex_value_digit by (apply N.mod_lt; lia). simpl. f_equal.
  zify. Z.to_euclidean_division_equations. lia.
Qed.

Lemma scan_string_u h1 h2 h3 h4 u s acc :
  hex4 h1 h2 h3 h4 = Some u → in_range 0xD800 0xDBFF u = false →
  scan_string (92 :: 117 :: h1 :: h2 :: h3 :: h4 :: s) acc = scan_string s (u :: acc).
Proof.
  intros Hhex Hhigh. cbn [scan_string N.eqb Pos.eqb]. rewrite Hhex, Hhigh.
  by destruct s as [|b [|v s]].
Qed.

Lemma scan_string_pair h1 h2 h3 h4 g1 g2 g3 g4 u u2 s acc :
  hex4 h1 h2 h3 h4 = Some u → in_range 0xD800 0xDBFF u = true →
  hex4 g1 g2 g3 g4 = Some u2 → in_range 0xDC00 0xDFFF u2 = true →
  scan_string (92 :: 117 :: h1 :: h2 :: h3 :: h4 :: 92 :: 117 :: g1 :: g2 :: g3 :: g4 :: s) acc
  = scan_string s (0x10000 + (u - 0xD800) * 1024 + (u2 - 0xDC00) :: acc).
Proof.
  intros Hhex Hhigh Hhex2 Hlow. cbn [scan_string N.eqb Pos.eqb].
  rewrite Hhex, Hhigh. cbn [andb N.eqb Pos.eqb]. by rewrite Hhex2, Hlow.
Qed.

(** Reading back what [json.dump] writes for one character of a string
    gives the character. *)
Lemma scan_string_escape_char c s acc :
  scalar c → scan_string (escape_char c ++ s) acc = scan_string s (c :: acc).
Proof.
  intros [Hlt Hsur]. unfold escape_char.
  destruct (N.eqb_spec c 34) as [->|H34]; [done|].
  destruct (N.eqb_spec c 92) as [->|H92]; [done|].
  destruct (in_range 32 126 c) eqn:Hp.
  { apply andb_prop in Hp as [?%N.leb_le ?%N.leb_le]. cbn [app scan_string].
    replace (c =? 34) with false by (symmetry; apply N.eqb_neq; lia).
    replace (c =? 92) with false by (symmetry; apply N.eqb_neq; lia).
    by replace (c <? 32) with false by (symmetry; apply N.ltb_ge; lia). }
  destruct (N.eqb_spec c 10) as [->|H10]; [done|].
  destruct (N.eqb_spec c 13) as [->|H13]; [done|].
  destruct (N.eqb_spec c 9) as [->|H9]; [done|].
  destruct (N.eqb_spec c 12) as [->|H12]; [done|].
  destruct (N.eqb_spec c 8) as [->|H8]; [done|].
  destruct (N.ltb_spec c 0x10000) as [Hbmp|Hsup].
  - unfold u_escape. cbn [app]. apply scan_string_u; [by apply hex4_digits|].
    unfold in_range. apply andb_false_iff. rewrite N.leb_gt, N.leb_gt. lia.
  - unfold u_escape. cbn [app]. remember (c - 0x10000) as n eqn:En.
    assert (n < 0x100000) as Hn by lia.
    assert (0x10000 + n / 1024 mod 1024 * 1024 + n mod 1024 = c) as Hc.
    { clear -En Hn Hsup. zify. Z.to_euclidean_division_equations. lia. }
    remember (n / 1024 mod 1024) as hi eqn:Ehi.
    remember (n mod 1024) as lo eqn:Elo.
    assert (hi < 1024) as Hhi by (subst hi; apply N.mod_lt; lia).
    assert (lo < 1024) as Hlo by (subst lo; apply N.mod_lt; lia).
    clear Ehi Elo.
    rewrite (scan_string_pair _ _ _ _ _ _ _ _ (0xD800 + hi) (0xDC00 + lo)).
    + by rewrite (N.add_comm 0xD800), (N.add_comm 0xDC00), !N.add_sub, Hc.
    + apply hex4_digits. lia.
    + unfold in_range. apply andb_true_iff. rewrite !N.leb_le. lia.
    + apply hex4_digits. lia.
    + unfold in_range. apply andb_true_iff. rewrite !N.leb_le. lia.
Qed.

Lemma scan_string_encoded w rest acc :
  Forall scalar w →
  scan_string (mjoin (escape_char <$> w) ++ [34] ++ rest) acc
  = Some (reverse acc ++ w, rest).
Proof.
  intros Hw. revert acc. induction Hw as [|c w Hc Hw IH]; intros acc.
  - simpl. by rewrite app_nil_r.
  - csimpl. rewrite <- (assoc_L (++)), scan_string_escape_char, IH by done.
    by rewrite reverse_cons, <- (assoc_L (++)).
Qed.

Lemma scan_items_encoded ws rest (got : list str) fuel :
  ws ≠ [] → Forall (Forall scalar) ws → (length ws ≤ fuel)%nat →
  scan_items fuel (join item_sep (encode_str <$> ws) ++ array_end ++ rest) got
  = Some (reverse got ++ ws, rest).
Proof.
  intros Hne Hws. revert got fuel.
  induction Hws as [|w ws Hw Hws IH]; intros got fuel Hfuel; [done|].
  destruct fuel as [|fuel]; [simpl in Hfuel; lia|].
  destruct ws as [|w' ws].
  - cbn [fmap list_fmap join]. unfold encode_str.
    cbn [app scan_items N.eqb Pos.eqb]. rewrite <- !(assoc_L (++)).
    rewrite scan_string_encoded by done. change (reverse [] ++ w) with w.
    cbn [app array_end skip_space json_space N.eqb Pos.eqb orb].
    by rewrite reverse_cons.
  - rewrite fmap_cons, (fmap_cons _ w'), join_cons_cons, <- (fmap_cons _ w').
    unfold encode_str at 1.
    cbn [app scan_items N.eqb Pos.eqb]. rewrite <- !(assoc_L (++)).
    rewrite scan_string_encoded by done. change (reverse [] ++ w) with w.
    destruct (join_encode_str_head (w' :: ws)) as [t Ht]; [done|].
    rewrite Ht at 1. cbn [app item_sep skip_space json_space N.eqb Pos.eqb orb].
    change (34 :: t ++ array_end ++ rest) with ((34 :: t) ++ array_end ++ rest).
    rewrite <- Ht, IH; [|done|simpl in *; lia].
    by rewrite reverse_cons, <- (assoc_L (++)).
Qed.

(** What is written for a list of strings of scalar values parses back
    to the list. *)
Lemma loads_dumps_scalar ws :
  Forall (Forall scalar) ws → loads_words (json_dumps ws ++ [10]) = Some ws.
Proof.
  intros Hws. destruct (decide (ws = [])) as [->|Hne]; [done|].
  destruct (join_encode_str_head ws) as [t Ht]; [done|].
  assert (json_dumps ws ++ [10] = [91] ++ [10; 32; 32] ++ 34 :: (t ++ array_end ++ [10]))
    as ->.
  { unfold json_dumps. destruct ws as [|w ws]; [done|].
    change [44; 10; 32; 32] with item_sep. rewrite Ht.
    change (text "[") with [91]. change (text "]") with [93].
    rewrite <- !(assoc_L (++)). done. }
  apply loads_words_array.
  change (34 :: t ++ array_end ++ [10]) with ((34 :: t) ++ array_end ++ [10]).
  rewrite <- Ht. rewrite (scan_items_encoded ws [10] []); [done..|].
  pose proof (length_join_encode_str ws). rewrite !length_app. lia.
Qed.

(** Every character [json.dump] writes for a character of a string is
    printable ASCII. *)
Lemma escape_char_printable c : Forall (λ x, 32 ≤ x ≤ 126) (escape_char c).
Proof.
  assert (∀ n, n < 16 → 32 ≤ hex_digit n ≤ 126) as Hd.
  { intros n Hn. pose proof (hex_digit_lt n Hn). lia. }
  assert (∀ u, Forall (λ x, 32 ≤ x ≤ 126) (u_escape u)) as Hu.
  { intros u. unfold u_escape.
    repeat (apply Forall_cons_2 || apply Forall_nil_2);
      first [apply Hd, N.mod_lt; lia | lia]. }
  unfold escape_char.
  destruct (c =? 34); [by repeat constructor|].
  destruct (c =? 92); [by repeat constructor|].
  destruct (in_range 32 126 c) eqn:Hp.
  { apply andb_prop in Hp as [?%N.leb_le ?%N.leb_le]. by repeat constructor. }
  destruct (c =? 10); [by repeat constructor|].
  destruct (c =? 13); [by repeat constructor|].
  destruct (c =? 9); [by repeat constructor|].
  destruct (c =? 12); [by repeat constructor|].
  destruct (c =? 8); [by repeat constructor|].
  destruct (c <? 0x10000); [apply Hu|].
  apply Forall_app. split; apply Hu.
Qed.

Lemma encode_str_printable w : Forall (λ x, 32 ≤ x ≤ 126) (encode_str w).
Proof.
  unfold encode_str. apply Forall_app. split; [by repeat constructor|].
  apply Forall_app. split; [|by repeat constructor].
  induction w as [|c w IH]; [constructor|]. csimpl.
  apply Forall_app. split; [apply escape_char_printable|done].
Qed.

Lemma json_dumps_printable ws : Forall (λ x, x = 10 ∨ 32 ≤ x ≤ 126) (json_dumps ws).
Proof.
  assert (∀ l, Forall (λ x, 32 ≤ x ≤ 126) l → Forall (λ x, x = 10 ∨ 32 ≤ x ≤ 126) l)
    as Hweak by (intros l Hl; eapply Forall_impl; [done|]; by right).
  assert (∀ l, Forall (λ x, x = 10 ∨ x = 32 ∨ x = 44 ∨ x = 91 ∨ x = 93) l →
               Forall (λ x, x = 10 ∨ 32 ≤ x ≤ 126) l) as Hlit.
  { intros l Hl. eapply Forall_impl; [done|].
    intros x [->|[->|[->|[->| ->]]]]; (by left) || (right; lia). }
  unfold json_dumps. destruct ws as [|w ws]; [apply Hlit; repeat (apply Forall_cons_2 || apply Forall_nil_2); auto 6|].
  generalize (w :: ws). clear w ws. intros ws.
  change (text "[") with [91]. change (text "]") with [93].
  rewrite !Forall_app.
  split; [apply Hlit; repeat (apply Forall_cons_2 || apply Forall_nil_2); auto 6|].
  split; [apply Hlit; repeat (apply Forall_cons_2 || apply Forall_nil_2); auto 6|].
  split; [|split; apply Hlit; repeat (apply Forall_cons_2 || apply Forall_nil_2); auto 6].
  induction ws as [|w [|w' ws] IH].
  - constructor.
  - apply Hweak, encode_str_printable.
  - rewrite !fmap_cons, join_cons_cons. rewrite fmap_cons in IH.
    apply Forall_app. split; [apply Hweak, encode_str_printable|].
    apply Forall_app. split; [apply Hlit; repeat (apply Forall_cons_2 || apply Forall_nil_2); auto 6|done].
Qed.
End OutputsMore.

(** X12. The JSON file reads back for every list of strings: whatever
    the words are, as long as their characters are Unicode scalar values
    (the empty list and words with quotes, backslashes, control
    characters or characters beyond ASCII included), parsing the file
    that [save_outputs] writes gives the list. *)
Theorem save_outputs_json_round_trip (w : world) (words : list str) (fs fs' : files) :
  Forall (Forall scalar) words →
  save_outputs w words fs = (Ok (), fs') →
  fs' !! OUT_JSON ≫= loads_words = Some words.
Proof.
  intros Hwords. unfold save_outputs, write_file.
  destruct (writable w OUT_TXT); [|done].
  destruct (writable w OUT_JSON); [|done].
  intros [= <-]. rewrite lookup_insert_eq. simpl. by apply loads_dumps_scalar.
Qed.

Lemma save_outputs_json_round_trip_witness :
  ∃ fs' : files,
    save_outputs open_world [[233; 34; 92; 10]; []; [0x1F600; 127]] ∅ = (Ok (), fs')
    ∧ fs' !! OUT_JSON ≫= loads_words = Some [[233; 34; 92; 10]; []; [0x1F600; 127]].
Proof.
  eexists. split; [reflexivity|].
  apply (save_outputs_json_round_trip open_world _ ∅); [|reflexivity].
  repeat constructor; unfold scalar; lia.
Defined.

(** X13. The JSON file is ASCII-safe: for words of Unicode scalar
    values, those beyond ASCII included, every character of the file
    that [save_outputs] writes is a printable ASCII character or a
    newline.  (A word with a surrogate cannot be encoded for the text
    file, so the statement is kept to scalar values.) *)
Theorem save_outputs_json_ascii (w : world) (words : list str) (fs fs' : files) (js : str) :
  Forall (Forall scalar) words →
  save_outputs w words fs = (Ok (), fs') → fs' !! OUT_JSON = Some js →
  Forall (λ c, c = 10 ∨ 32 ≤ c ≤ 126) js.
Proof.
  intros _. unfold save_outputs, write_file.
  destruct (writable w OUT_TXT); [|done].
  destruct (writable w OUT_JSON); [|done].
  intros [= <-]. rewrite lookup_insert_eq. intros [= <-].
  apply Forall_app. split; [apply json_dumps_printable|by repeat constructor; left].
Qed.

Lemma save_outputs_json_ascii_witness :
  Forall (λ c, c = 10 ∨ 32 ≤ c ≤ 126) (json_dumps [[233; 34; 0x1F600]] ++ [10]).
Proof.
  apply (save_outputs_json_ascii open_world [[233; 34; 0x1F600]] ∅
           (<[OUT_JSON := json_dumps [[233; 34; 0x1F600]] ++ [10]]>
              (<[OUT_TXT := join [10] [[233; 34; 0x1F600]] ++ [10]]> ∅))).
  - repeat constructor; unfold scalar; lia.
  - reflexivity.
  - apply lookup_insert_eq.
Defined.

(** X14. The text file reads back line by line for every list of words
    that is not empty and whose words are of Unicode scalar values and
    hold no line boundary; for the empty list the file is a single
    newline, which reads back as one empty line and not as no line.  (A
    word with a surrogate cannot be encoded for the text file, so the
    statement is kept to scalar values.) *)
Theorem save_outputs_text_round_trip (w : world) (words : list str) (fs fs' : files) :
  Forall (Forall scalar) words →
  Forall (Forall (λ c, is_linebreak c = false)) words →
  save_outputs w words fs = (Ok (), fs') →
  splitlines <$> fs' !! OUT_TXT
  = Some (match words with [] => [[]] | _ => words end).
Proof.
  intros _ Hwords. unfold save_outputs, write_file.
  destruct (writable w OUT_TXT); [|done].
  destruct (writable w OUT_JSON); [|done].
  intros [= <-]. rewrite lookup_insert_ne, lookup_insert_eq by done. simpl. f_equal.
  destruct words as [|word words]; [done|]. by apply splitlines_join.
Qed.

Lemma save_outputs_text_round_trip_witness :
  ∃ fs' : files,
    save_outputs open_world [text "it's"; []; text "x y"] ∅ = (Ok (), fs')
    ∧ splitlines <$> fs' !! OUT_TXT = Some [text "it's"; []; text "x y"].
Proof.
  eexists. split; [reflexivity|].
  apply (save_outputs_text_round_trip open_world [text "it's"; []; text "x y"] ∅);
    [| |reflexivity].
  - apply (bool_decide_unpack _). vm_compute. exact I.
  - repeat constructor.
Defined.

(** * More on the URL and on the run as a whole *)


(** The exceptions of [print] and of [json.loads] at work: a
    ["tarball_url"] or a ["tag_name"] with a surrogate, and an integer
    of 641 digits where [int] reads 640. *)
Lemma get_download_url_raises :
  @get_download_url latin1_interpreter
    (Json (JDict [(text "tarball_url", JStr [0xD800])])) = Raise UnicodeEncodeError
  ∧ @get_download_url latin1_interpreter
      (Json (JDict [(text "tag_name", JStr [0xDFFF]);
                    (text "tarball_url", JStr (text "https://example.org/x"))]))
    = Raise UnicodeEncodeError
  ∧ @get_download_url limited_interpreter
      (Json (JDict [(text "id", JInt (10 ^ 640))])) = Raise ValueError
  ∧ @get_download_url limited_interpreter
      (Json (JDict [(text "id", JInt (10 ^ 639))])) = Ok (JStr FALLBACK_URL)
  ∧ @get_download_url latin1_interpreter
      (Json (JDict [(text "id", JInt (10 ^ 640))])) = Ok (JStr FALLBACK_URL).
Proof. split_and!; vm_compute; reflexivity. Qed.

Section RunMore.
Context `{Interpreter}.

Lemma catches_one cls e : catches [cls] e = isinstance e cls.
Proof. unfold catches. simpl. apply orb_false_r. Qed.


Lemma save_outputs_Ok (w : world) words (fs fs' : files) :
  save_outputs w words fs = (Ok (), fs') →
  fs' = <[OUT_JSON := json_dumps words ++ [10]]>
          (<[OUT_TXT := join [10] words ++ [10]]> fs).
Proof.
  unfold save_outputs, write_file.
  destruct (writable w OUT_TXT); [|done].
  destruct (writable w OUT_JSON); [|done]. by intros [= <-].
Qed.

Lemma main_Ok (w : world) (fs fs' : files) :
  main w fs = (Ok (), fs') →
  ∃ raw, fetch_raw w = Ok raw ∧ process_words raw ≠ []
         ∧ save_outputs w (process_words raw) fs = (Ok (), fs').
Proof.
  unfold main. destruct (fetch_raw w) as [raw|e]; [|done].
  destruct (process_words raw) as [|word words] eqn:Hw; [done|].
  intros Hs. exists raw. by rewrite Hw.
Qed.

Lemma five_lower_read_back words :
  words ≠ [] → Forall five_lower words →
  splitlines (join [10] words ++ [10]) = words
  ∧ loads_words (json_dumps words ++ [10]) = Some words.
Proof.
  intros Hne Hwords. split.
  - apply splitlines_join; [done|].
    eapply Forall_impl; [exact Hwords|]. intros word [_ Hw].
    eapply Forall_impl; [exact Hw|]. apply lower_not_linebreak.
  - apply loads_dumps; [done|].
    eapply Forall_impl; [exact Hwords|]. intros word [_ Hw].
    eapply Forall_impl; [exact Hw|]. apply lower_plain.
Qed.

End RunMore.


Lemma sample_world_runs :
  @main latin1_interpreter sample_world ∅ = (Ok (), sample_files).
Proof. vm_compute. reflexivity. Qed.

(** X16. A run that fails before the archive is read leaves the files as
    they were.  When the download raises [URLError] or a subclass of it,
    and when [tarfile] cannot open the downloaded file and raises
    [TarError] or a subclass of it, [main] ends by [sys.exit(1)]; any
    other exception of these two steps leaves [main] as it is. *)
Theorem main_stops_early `{Interpreter} (w : world) (fs : files) url :
  get_download_url (api w) = Ok url →
  (∀ e, download w url = DownloadRaises e →
        main w fs = (Raise (if isinstance e URLError then SystemExit 1 else e), fs))
  ∧ (∀ e, download w url = Saved (OpenRaises e) →
          main w fs = (Raise (if isinstance e TarError then SystemExit 1 else e), fs)).
Proof.
  intros Hurl. split; intros e Hdl; unfold main, fetch_raw; rewrite Hurl;
    cbv beta iota delta [mbind result_bind]; rewrite Hdl;
    cbv beta iota zeta delta [download_tarball extract_words]; rewrite catches_one;
    by destruct (isinstance e _).
Qed.

Lemma main_stops_early_witness :
  @main latin1_interpreter open_world ∅ = (Raise (SystemExit 1), ∅).
Proof.
  destruct (@main_stops_early latin1_interpreter open_world ∅ (JStr FALLBACK_URL) eq_refl)
    as [Hdl _].
  exact (Hdl URLError eq_refl).
Defined.

(** X17. What a run of [main] never does, however it ends: it leaves
    every file but the two outputs as it was; it changes a file only
    when the archive was read and the filter kept at least one word; and
    it touches the JSON file only after the text file holds the whole
    list of words. *)
Theorem main_writes_in_order `{Interpreter} (w : world) (fs : files) :
  (∀ path, path ≠ OUT_TXT → path ≠ OUT_JSON → (main w fs).2 !! path = fs !! path)
  ∧ ((main w fs).2 ≠ fs →
       ∃ raw, fetch_raw w = Ok raw ∧ process_words raw ≠ [])
  ∧ ((main w fs).2 !! OUT_JSON ≠ fs !! OUT_JSON →
       ∃ raw, fetch_raw w = Ok raw ∧ process_words raw ≠ []
              ∧ (main w fs).2 !! OUT_TXT
                = Some (join [10] (process_words raw) ++ [10])).
Proof.
  destruct (main_cases w fs) as [Hfs|(raw & Hraw & Hne & Hmain)].
  { rewrite Hfs. by split_and!. }
  split_and!.
  - intros path Ht Hj. rewrite Hmain.
    destruct (save_outputs w (process_words raw) fs) as [r fs'] eqn:Hs.
    by eapply save_outputs_only_outputs.
  - intros _. by exists raw.
  - rewrite Hmain. intros Hjson. exists raw. split_and!; [done..|].
    revert Hjson. unfold save_outputs, write_file.
    destruct (writable w OUT_TXT); [|done].
    destruct (writable w OUT_JSON); simpl; intros _.
    + by rewrite lookup_insert_ne, lookup_insert_eq.
    + by rewrite lookup_insert_eq.
Qed.

Lemma main_writes_in_order_witness :
  (@main latin1_interpreter sample_world ∅).2 !! OUT_JSON ≠ (∅ : files) !! OUT_JSON
  ∧ ∃ raw, @fetch_raw latin1_interpreter sample_world = Ok raw
           ∧ @process_words latin1_interpreter raw ≠ []
           ∧ (@main latin1_interpreter sample_world ∅).2 !! OUT_TXT
             = Some (join [10] (@process_words latin1_interpreter raw) ++ [10]).
Proof.
  assert ((@main latin1_interpreter sample_world ∅).2 !! OUT_JSON
          ≠ (∅ : files) !! OUT_JSON) as Hjson.
  { rewrite sample_world_runs. unfold sample_files. simpl.
    by rewrite lookup_insert_eq, lookup_empty. }
  split; [exact Hjson|].
  destruct (@main_writes_in_order latin1_interpreter sample_world ∅) as (_ & _ & Hord).
  exact (Hord Hjson).
Defined.

(** X18. After a run that ends normally the two files hold the same
    list of words, which is not empty, has only words of five letters
    a-z and is strictly ascending; the exit status is 0 and every other
    file is as it was. *)
Theorem main_success `{Interpreter} (w : world) (fs fs' : files) :
  main w fs = (Ok (), fs') →
  ∃ words,
    words ≠ [] ∧ Forall five_lower words ∧ Sorted str_lt words
    ∧ splitlines <$> fs' !! OUT_TXT = Some words
    ∧ fs' !! OUT_JSON ≫= loads_words = Some words
    ∧ exit_status (main w fs).1 = 0%Z
    ∧ ∀ path, path ≠ OUT_TXT → path ≠ OUT_JSON → fs' !! path = fs !! path.
Proof.
  intros Hmain. destruct (main_Ok w fs fs' Hmain) as (raw & Hraw & Hne & Hs).
  exists (process_words raw).
  destruct (five_lower_read_back (process_words raw) Hne (process_words_five_lower raw))
    as [Htxt Hjson].
  rewrite Hmain. apply save_outputs_Ok in Hs as ->.
  split_and!; try done.
  - apply process_words_five_lower.
  - apply Sorted_le_NoDup_lt; [apply sort_Sorted|apply process_words_NoDup].
  - rewrite lookup_insert_ne, lookup_insert_eq by done. simpl. by rewrite Htxt.
  - by rewrite lookup_insert_eq.
  - intros path Ht Hj. by rewrite !lookup_insert_ne.
Qed.

Lemma main_success_witness :
  @main latin1_interpreter sample_world ∅ = (Ok (), sample_files)
  ∧ ∃ words,
      words ≠ [] ∧ Forall five_lower words ∧ Sorted str_lt words
      ∧ splitlines <$> sample_files !! OUT_TXT = Some words
      ∧ sample_files !! OUT_JSON ≫= loads_words = Some words
      ∧ exit_status (@main latin1_interpreter sample_world ∅).1 = 0%Z
      ∧ ∀ path, path ≠ OUT_TXT → path ≠ OUT_JSON →
                sample_files !! path = (∅ : files) !! path.
Proof.
  split; [exact sample_world_runs|].
  exact (@main_success latin1_interpreter sample_world ∅ sample_files sample_world_runs).
Defined.




